(** * Facecastify: the batch generation service, the zip builder and the
      Glowfic hand-off, shallowly embedded.

    Sources: the Gemini service ([generateFacecast], [generateFacecastBatch],
    the API key store) and the old [GlowficUploadService]
    ([launchGlowficApp]) in src/unnamed/part_002; the current
    [GlowficUploadService.createAndDownloadZip] in
    src/src/services/GlowficUploadService.ts.

    JavaScript strings are modelled as Rocq [string]s (ASCII characters);
    [undefined] / [null] fields are [None]; an async function's promise is a
    [settled] value; the remote endpoint, the order in which concurrent
    requests settle and the browser's navigation are parameters. *)

From Stdlib Require Import Ascii String Bool ZArith Lia.
From stdpp Require Import base list sets strings pretty.

Open Scope string_scope.
Open Scope nat_scope.

(* ------------------------------------------------------------------ *)
(** ** JavaScript string helpers *)

Definition code (c : ascii) : nat := nat_of_ascii c.

(** JavaScript [\s] restricted to ASCII: tab, LF, VT, FF, CR, space. *)
Definition is_js_space (c : ascii) : bool :=
  let n := code c in
  (9 <=? n) && (n <=? 13) || (n =? 32).

Definition is_upper (c : ascii) : bool := (65 <=? code c) && (code c <=? 90).
Definition is_lower (c : ascii) : bool := (97 <=? code c) && (code c <=? 122).
Definition is_digit (c : ascii) : bool := (48 <=? code c) && (code c <=? 57).
Definition is_alnum (c : ascii) : bool := is_upper c || is_lower c || is_digit c.

(** [String.prototype.toLowerCase] on ASCII. *)
Definition js_lower_char (c : ascii) : ascii :=
  if is_upper c then ascii_of_nat (code c + 32) else c.

Definition js_toLowerCase (s : string) : string :=
  string_of_list_ascii (map js_lower_char (list_ascii_of_string s)).

(** [s.split(sep)] for a one-character separator. *)
Fixpoint js_split_char (sep : ascii) (s : string) : list string :=
  match s with
  | EmptyString => [EmptyString]
  | String c r =>
      let pieces := js_split_char sep r in
      if Ascii.eqb c sep then EmptyString :: pieces
      else match pieces with
           | p :: ps => String c p :: ps
           | [] => [String c EmptyString]
           end
  end.

(** [s.indexOf(pat)]: the first position where [pat] occurs. *)
Fixpoint js_index_of (pat s : string) : option nat :=
  if String.prefix pat s then Some 0
  else match s with
       | EmptyString => None
       | String _ r => option_map S (js_index_of pat r)
       end.

(** GetSubstitution for a string pattern (no capture groups): in the
    replacement, [$$] gives [$], [$&] the matched text, [$`] the text
    before the match and [$'] the text after it; every other [$] (also
    [$1] and [$<], as there are no captures) stays as it is. *)
Fixpoint js_get_substitution (matched before after rep : string) : string :=
  match rep with
  | EmptyString => EmptyString
  | String c r =>
      if Ascii.eqb c "$" then
        match r with
        | String d r' =>
            if Ascii.eqb d "$" then String "$" (js_get_substitution matched before after r')
            else if Ascii.eqb d "&" then matched ++ js_get_substitution matched before after r'
            else if Ascii.eqb d "`" then before ++ js_get_substitution matched before after r'
            else if Ascii.eqb d "'" then after ++ js_get_substitution matched before after r'
            else String c (js_get_substitution matched before after r)
        | EmptyString => String c EmptyString
        end
      else String c (js_get_substitution matched before after r)
  end.

(** [s.replace(pat, rep)] with a string pattern: the first occurrence only,
    the replacement expanded by GetSubstitution. *)
Definition js_replace_first (pat rep s : string) : string :=
  match js_index_of pat s with
  | None => s
  | Some p =>
      let before := substring 0 p s in
      let after := substring (p + String.length pat) (String.length s) s in
      before ++ js_get_substitution pat before after rep ++ after
  end.

(** JavaScript truthiness of an optional string: [undefined], [null] and
    [""] are falsy. *)
Definition truthy (o : option string) : bool :=
  match o with Some s => negb (String.eqb s "") | None => false end.

(** The outcome of a JavaScript promise. *)
Inductive settled (A : Type) : Type :=
| Resolved (a : A)
| Rejected (msg : string).
Arguments Resolved {A} a.
Arguments Rejected {A} msg.

(* ------------------------------------------------------------------ *)
(** ** The Gemini service: one request *)

Record GeminiResponse := {
  imageData_of : option string;
  textResponse_of : option string
}.

(** A content part of the response: [part.inlineData] (mime type and
    base64 data) and [part.text]. *)
Record part := {
  inlineData : option (string * string);
  text : option string
}.

(** [candidate.content.parts]: [None] when [content] or [parts] is missing. *)
Record candidate := { content_parts : option (list part) }.

(** [result.candidates]. *)
Record json_body := { candidates : option (list candidate) }.

(** The request body's relevant fields and the URL. *)
Record request := {
  req_url : string;
  req_image : option string;  (* [base64Data]: undefined when no comma *)
  req_prompt : string
}.

(** What [fetch] (and [response.json()]) produce for one request. *)
Inductive fetch_outcome :=
| NetworkError (msg : string)                      (* fetch rejects *)
| HttpResponse (ok : bool) (status : nat) (body_text : string)
               (json : string + json_body).        (* inl: json() rejects *)

Definition modelName := "models/gemini-2.0-flash-exp".

Definition missing_key_msg :=
  "No Gemini API key available. Please provide an API key.".

Definition no_content_msg := "No content found in Gemini response".

Definition default_prompt (expression : string) : string :=
  "Make the character in the reference image have the following expression: "
  ++ expression ++
  ". Focus on the face and upper shoulders only, but otherwise try to replicate the reference image (colors, clothes, theme, age, setting) as closely as possible.".

Definition build_prompt (expression : string) (customPrompt : option string) : string :=
  match customPrompt with
  | Some cp => if truthy customPrompt then js_replace_first "{expression}" expression cp
               else default_prompt expression
  | None => default_prompt expression
  end.

Definition build_request (apiKey referenceImageData expression : string)
    (customPrompt : option string) : request :=
  {| req_url := "https://generativelanguage.googleapis.com/v1beta/" ++ modelName
                ++ ":generateContent?key=" ++ apiKey;
     req_image := (js_split_char "," referenceImageData) !! 1;
     req_prompt := build_prompt expression customPrompt |}.

(** The loop over [candidate.content.parts]. *)
Definition read_part (g : GeminiResponse) (p : part) : GeminiResponse :=
  match inlineData p with
  | Some (mime, data) =>
      {| imageData_of := Some ("data:" ++ mime ++ ";base64," ++ data);
         textResponse_of := textResponse_of g |}
  | None =>
      if truthy (text p)
      then {| imageData_of := imageData_of g; textResponse_of := text p |}
      else g
  end.

Definition read_body (b : json_body) : GeminiResponse :=
  let empty := {| imageData_of := None; textResponse_of := None |} in
  match candidates b with
  | Some (c :: _) =>
      match content_parts c with
      | Some ps => fold_left read_part ps empty
      | None => empty
      end
  | _ => empty
  end.

(** [generateFacecast]: the settled promise and the requests sent;
    [fetch] is the remote endpoint as seen through [fetch] and
    [response.json()]. *)
Definition generateFacecast (fetch : request -> fetch_outcome) (apiKey : option string) (referenceImageData expression : string)
    (customPrompt : option string) : settled GeminiResponse * list request :=
  match apiKey with
  | Some key =>
      if truthy apiKey then
        let req := build_request key referenceImageData expression customPrompt in
        let answer :=
          match fetch req with
          | NetworkError m => Rejected m
          | HttpResponse ok status body json =>
              if negb ok then
                Rejected ("API request failed with status " ++ pretty status ++ ": " ++ body)
              else match json with
                   | inl m => Rejected m
                   | inr b =>
                       let g := read_body b in
                       if negb (truthy (imageData_of g)) && negb (truthy (textResponse_of g))
                       then Rejected no_content_msg
                       else Resolved g
                   end
          end in
        (answer, [req])
      else (Rejected missing_key_msg, [])
  | None => (Rejected missing_key_msg, [])
  end.

(* ------------------------------------------------------------------ *)
(** ** The Gemini service: the batch *)

Record FacecastResult := {
  expression : string;
  imageData : option string;
  error : option string
}.

(** [.then(response => ({ expression, imageData: response.imageData }))
     .catch(error => ({ expression, error: error.message }))]. *)
Definition to_result (e : string) (s : settled GeminiResponse) : FacecastResult :=
  match s with
  | Resolved g => {| expression := e; imageData := imageData_of g; error := None |}
  | Rejected m => {| expression := e; imageData := None; error := Some m |}
  end.

(** Observable events of a batch run: item [j] is dispatched (its
    [generateFacecast] call starts), item [j]'s request is sent, item [j]'s
    promise settles, the loop sleeps [ms] milliseconds. *)
Inductive event :=
| Dispatch (j : nat)
| Fetch (j : nat) (r : request)
| Settle (j : nat)
| Pause (ms : nat).

Definition is_pause (e : event) : bool :=
  match e with Pause _ => true | _ => false end.

(** [Promise.all]: each promise writes its value into its own slot when it
    settles; [order] is the order in which the positions settle. *)
Fixpoint fill_slots {A} (outs : list A) (order : list nat) (slots : list (option A))
    : list (option A) :=
  match order with
  | [] => slots
  | j :: o => fill_slots outs o (<[j := outs !! j]> slots)
  end.

(** Resolves once every slot holds a value. *)
Fixpoint all_filled {A} (slots : list (option A)) : option (list A) :=
  match slots with
  | [] => Some []
  | Some x :: r => (x ::.) <$> all_filled r
  | None :: _ => None
  end.

Definition promise_all {A} (outs : list A) (order : list nat) : option (list A) :=
  all_filled (fill_slots outs order (replicate (length outs) None)).

(** [for (let i = start; i < n; i += k) body(i)]: the outputs of the
    iterations, [None] when [fuel] iterations do not reach the exit. *)
Fixpoint js_for {B} (fuel k n i : nat) (body : nat -> B) : option (list B) :=
  if i <? n then
    match fuel with
    | O => None
    | S f => (body i ::.) <$> js_for f k n (i + k) body
    end
  else Some [].

(** [Math.ceil(n / k)] for [k >= 1]. *)
Definition js_ceil_div (n k : nat) : nat := (n + k - 1) / k.

Record chunk_out := {
  co_items : list nat;                        (* indices dispatched *)
  co_results : option (list FacecastResult);  (* [await Promise.all(batch)] *)
  co_events : list event
}.

Section Service.

(** The network: the answer to the request sent for item [j]. *)
Variable net : nat -> request -> fetch_outcome.

(** The scheduler: for the chunk starting at [i], the order in which its
    positions [0 .. batchSize-1] settle. *)
Variable sched : nat -> list nat -> list nat.

Section Batch.
Variables (apiKey : option string) (referenceImageData : string)
          (expressions : list string) (concurrencyLimit : nat)
          (customPrompt : option string).

(** Item [i + j] of the chunk starting at [i]. *)
Definition item_call (i j : nat) : FacecastResult * list event :=
  let e := nth (i + j) expressions "" in
  let '(s, reqs) := generateFacecast (net (i + j)) apiKey referenceImageData e customPrompt in
  (to_result e s, Dispatch (i + j) :: map (Fetch (i + j)) reqs).

(** One iteration of the [for] loop of [generateFacecastBatch]. *)
Definition chunk_body (i : nat) : chunk_out :=
  let n := length expressions in
  let batchSize := Nat.min concurrencyLimit (n - i) in
  let pos := seq 0 batchSize in
  let calls := map (item_call i) pos in
  let order := sched i pos in
  {| co_items := map (Nat.add i) pos;
     co_results := promise_all (map fst calls) order;
     co_events := concat (map snd calls)
                  ++ map (fun j => Settle (i + j)) order
                  ++ (if i + concurrencyLimit <? n then [Pause 1000] else []) |}.

Definition batch_chunks (fuel : nat) : option (list chunk_out) :=
  js_for fuel concurrencyLimit (length expressions) 0 chunk_body.

(** [generateFacecastBatch]: [None] when it never returns. Its
    [try]/[catch] rethrows, and nothing inside throws: every per-item
    rejection is caught by the item's [.catch]. The loop runs at most
    [length expressions] times when [concurrencyLimit >= 1]; with a limit
    of [0] it never exits, whatever the fuel. *)
Definition generateFacecastBatch : option (settled (list FacecastResult) * list event) :=
  match batch_chunks (length expressions) with
  | None => None
  | Some cs =>
      match all_filled (map co_results cs) with
      | Some rss => Some (Resolved (concat rss), concat (map co_events cs))
      | None => None
      end
  end.

End Batch.

End Service.

(* ------------------------------------------------------------------ *)
(** ** [atob]: the browser's forgiving-base64 decoding, on ASCII *)

(** ASCII whitespace of the forgiving-base64 algorithm: TAB, LF, FF, CR,
    SPACE. *)
Definition is_ascii_ws (c : ascii) : bool :=
  let n := code c in (n =? 9) || (n =? 10) || (n =? 12) || (n =? 13) || (n =? 32).

Definition b64_value (c : ascii) : option nat :=
  let n := code c in
  if is_upper c then Some (n - 65)
  else if is_lower c then Some (n - 71)
  else if is_digit c then Some (n + 4)
  else if n =? 43 then Some 62
  else if n =? 47 then Some 63
  else None.

Fixpoint b64_values (l : list ascii) : option (list nat) :=
  match l with
  | [] => Some []
  | c :: r =>
      match b64_value c, b64_values r with
      | Some v, Some vs => Some (v :: vs)
      | _, _ => None
      end
  end.

(** Four sextets give three bytes; a final group of three or two sextets
    gives two or one byte, the left-over bits dropped. *)
Fixpoint b64_bytes (l : list nat) : option (list nat) :=
  match l with
  | [] => Some []
  | a :: b :: c :: d :: r =>
      match b64_bytes r with
      | Some bs => Some ((a * 4 + b / 16) :: ((b mod 16) * 16 + c / 4)
                          :: ((c mod 4) * 64 + d) :: bs)
      | None => None
      end
  | [a; b; c] => Some [a * 4 + b / 16; (b mod 16) * 16 + c / 4]
  | [a; b] => Some [a * 4 + b / 16]
  | [_] => None
  end.

Definition is_eq_sign (c : ascii) : bool := code c =? 61.

(** Remove one or two trailing [=] when the length is a multiple of 4. *)
Definition strip_padding (l : list ascii) : list ascii :=
  if length l mod 4 =? 0 then
    match rev l with
    | c1 :: c2 :: r => if is_eq_sign c1 && is_eq_sign c2 then rev r
                       else if is_eq_sign c1 then rev (c2 :: r) else l
    | [c1] => if is_eq_sign c1 then [] else l
    | [] => l
    end
  else l.

(** [atob(s)]: the bytes of the decoded binary string, [None] when it
    throws [InvalidCharacterError]. *)
Definition atob (s : string) : option (list nat) :=
  let l := strip_padding (filter (fun c => negb (is_ascii_ws c)) (list_ascii_of_string s)) in
  if length l mod 4 =? 1 then None
  else match b64_values l with
       | Some vs => b64_bytes vs
       | None => None
       end.

Definition atob_error_msg := "The string to be decoded is not correctly encoded.".

(* ------------------------------------------------------------------ *)
(** ** [GlowficUploadService.createAndDownloadZip] *)

(** [.replace(/[^a-zA-Z0-9\s-]/g, '')]. *)
Definition keep_char (c : ascii) : bool :=
  is_alnum c || is_js_space c || (code c =? 45).

Definition strip_unsafe (s : string) : string :=
  string_of_list_ascii (filter keep_char (list_ascii_of_string s)).

(** [.replace(/\s+/g, '-')]: a left-to-right scan; [in_run] is set while
    inside a run already replaced by its hyphen. *)
Fixpoint replace_ws_runs_go (in_run : bool) (l : list ascii) : list ascii :=
  match l with
  | [] => []
  | c :: r =>
      if is_js_space c then
        if in_run then replace_ws_runs_go true r
        else "-"%char :: replace_ws_runs_go true r
      else c :: replace_ws_runs_go false r
  end.

Definition replace_ws_runs (s : string) : string :=
  string_of_list_ascii (replace_ws_runs_go false (list_ascii_of_string s)).

Definition safeExpression (expr : string) : string :=
  js_toLowerCase (replace_ws_runs (strip_unsafe expr)).

Definition imageFilename (expr : string) : string :=
  "facecast-" ++ safeExpression expr ++ ".png".

(** [imageData.split(',')[1]] decoded by [atob]; [atob(undefined)]
    decodes the string ["undefined"]. *)
Definition decode_payload (imageData : string) : option (list nat) :=
  atob (default "undefined" ((js_split_char "," imageData) !! 1)).

(** A JSZip archive: its files in insertion order. [zip.file(name, data)]
    stores [this.files[name] = object]: a name already present keeps its
    place and gets the new data. *)
Abbreviation zip_entries := (list (string * list nat)).

Fixpoint zip_file (name : string) (data : list nat) (z : zip_entries) : zip_entries :=
  match z with
  | [] => [(name, data)]
  | (nm, d) :: r => if String.eqb nm name then (name, data) :: r
                    else (nm, d) :: zip_file name data r
  end.

(** The [for (const result of successfulResults)] loop. *)
Fixpoint add_results (z : zip_entries) (rs : list FacecastResult) : settled zip_entries :=
  match rs with
  | [] => Resolved z
  | r :: rest =>
      match decode_payload (default "" (imageData r)) with
      | None => Rejected atob_error_msg
      | Some bytes => add_results (zip_file (imageFilename (expression r)) bytes z) rest
      end
  end.

Definition successful (results : list FacecastResult) : list FacecastResult :=
  filter (fun r => truthy (imageData r)) results.

Definition empty_zip_msg := "No successful facecasts to zip".

(** [createAndDownloadZip(results, filename)]: the name and the entries of
    the archive it downloads. The blob generation and the download link
    do not fail on an in-memory archive; the [catch] rethrows. *)
Definition createAndDownloadZip (results : list FacecastResult) (filename : string)
    : settled (string * zip_entries) :=
  match successful results with
  | [] => Rejected empty_zip_msg
  | succ =>
      match add_results [] succ with
      | Resolved z => Resolved (filename, z)
      | Rejected m => Rejected m
      end
  end.

(** One [zip.file(name, bytes)] call, as a step of a fold. *)
Definition zip_step (z : zip_entries) (p : string * list nat) : zip_entries :=
  zip_file (fst p) (snd p) z.

Definition default_zip_name := "facecasts.glowficgirllichgallery".

(** The normalisation in the words of the spec (used to check the
    source's regular expressions against it): keep [A-Za-z0-9], whitespace
    and hyphens; split into maximal runs of whitespace and of other
    characters; put one hyphen for each whitespace run; lowercase. *)
Fixpoint spec_runs (l : list ascii) : list (list ascii) :=
  match l with
  | [] => []
  | c :: r =>
      match spec_runs r with
      | (d :: ds) :: rest =>
          if Bool.eqb (is_js_space c) (is_js_space d) then (c :: d :: ds) :: rest
          else [c] :: (d :: ds) :: rest
      | _ => [[c]]
      end
  end.

(** A whitespace run stands for one hyphen; any other run for itself. *)
Definition spec_run_text (run : list ascii) : list ascii :=
  match run with
  | c :: _ => if is_js_space c then ["-"%char] else run
  | [] => []
  end.

Definition spec_normalize (label : string) : string :=
  let kept := filter keep_char (list_ascii_of_string label) in
  let collapsed := concat (map spec_run_text (spec_runs kept)) in
  string_of_list_ascii (map js_lower_char collapsed).

(** The characters a normalised label can hold: [a-z], [0-9] and [-]. *)
Definition filename_char (c : ascii) : bool :=
  is_lower c || is_digit c || (code c =? 45).

(** The payload written last under [name] by a sequence of
    [(filename, payload)] writes, in the spec's terms: the later of two
    writes to the same name is the one that counts. *)
Definition last_payload (name : string) (ops : list (string * list nat)) : option (list nat) :=
  match List.find (fun p => String.eqb (fst p) name) (rev ops) with
  | Some p => Some (snd p)
  | None => None
  end.

(* ------------------------------------------------------------------ *)
(** ** [GeminiService]'s API-key store and its listeners *)

(** A listener is identified by a number (the function's identity, which
    [l !== listener] compares); a call of listener [l] with [hasKey] is
    recorded as [(l, hasKey)]. *)
Record store := {
  apiKey_st : option string;        (* this.apiKey *)
  stored : option string;           (* localStorage[gemini_api_key] *)
  apiKeyListeners : list nat        (* this.apiKeyListeners *)
}.

Abbreviation calls := (list (nat * bool)).

Definition API_KEY_STORAGE_KEY := "gemini_api_key".

(** [loadApiKey]: the Vite variable first, then local storage. *)
Definition loadApiKey (envApiKey storedApiKey : option string) : option string :=
  if truthy envApiKey then envApiKey
  else if truthy storedApiKey then storedApiKey
  else None.

(** [new GeminiService()]. *)
Definition new_service (envApiKey storedApiKey : option string) : store :=
  {| apiKey_st := loadApiKey envApiKey storedApiKey;
     stored := storedApiKey; apiKeyListeners := [] |}.

Definition hasApiKey (s : store) : bool := truthy (apiKey_st s).

Definition notifyApiKeyListeners (s : store) : calls :=
  let hasKey := hasApiKey s in
  map (fun l => (l, hasKey)) (apiKeyListeners s).

Definition setApiKey (key : string) (s : store) : store * calls :=
  let s' := {| apiKey_st := Some key; stored := Some key;
               apiKeyListeners := apiKeyListeners s |} in
  (s', notifyApiKeyListeners s').

Definition addApiKeyListener (l : nat) (s : store) : store * calls :=
  let s' := {| apiKey_st := apiKey_st s; stored := stored s;
               apiKeyListeners := apiKeyListeners s ++ [l] |} in
  (s', [(l, hasApiKey s')]).

(** The function returned by [addApiKeyListener(l)]. *)
Definition removeApiKeyListener (l : nat) (s : store) : store * calls :=
  ({| apiKey_st := apiKey_st s; stored := stored s;
      apiKeyListeners := List.filter (fun l' => negb (l' =? l)) (apiKeyListeners s) |}, []).

Inductive api_op :=
| AddListener (l : nat)
| RemoveListener (l : nat)
| SetApiKey (key : string).

Definition api_step (s : store) (o : api_op) : store * calls :=
  match o with
  | AddListener l => addApiKeyListener l s
  | RemoveListener l => removeApiKeyListener l s
  | SetApiKey key => setApiKey key s
  end.

Fixpoint api_run (s : store) (ops : list api_op) : store * calls :=
  match ops with
  | [] => (s, [])
  | o :: rest =>
      let (s1, c1) := api_step s o in
      let (s2, c2) := api_run s1 rest in
      (s2, c1 ++ c2)%list
  end.

(* ------------------------------------------------------------------ *)
(** ** [GlowficUploadService.launchGlowficApp] (earlier version) *)

Definition nl : string := String (ascii_of_nat 10) EmptyString.

(** [String.prototype.trim] on ASCII. *)
Fixpoint trim_start (l : list ascii) : list ascii :=
  match l with
  | c :: r => if is_js_space c then trim_start r else l
  | [] => []
  end.

Definition js_trim (s : string) : string :=
  string_of_list_ascii (rev (trim_start (rev (trim_start (list_ascii_of_string s))))).

(** [encodeURIComponent] on ASCII: the unreserved marks and alphanumerics
    stay, every other byte becomes [%XX] in upper-case hex. On ASCII it
    never throws. *)
Definition uri_unreserved (c : ascii) : bool :=
  is_alnum c || existsb (fun n => code c =? n) [45; 95; 46; 33; 126; 42; 39; 40; 41].

Definition hex_digit (n : nat) : ascii :=
  ascii_of_nat (if n <? 10 then 48 + n else 55 + n).

Fixpoint encode_go (l : list ascii) : list ascii :=
  match l with
  | [] => []
  | c :: r =>
      if uri_unreserved c then c :: encode_go r
      else "%"%char :: hex_digit (code c / 16) :: hex_digit (code c mod 16) :: encode_go r
  end.

Definition encodeURIComponent (s : string) : option string :=
  Some (string_of_list_ascii (encode_go (list_ascii_of_string s))).

Inductive ui_event :=
| Log (msg : string)
| ConsoleError (msg : string)
| Navigate (url : string)
| Alert (msg : string).

Definition launch_prefix := "glowficgirlichgallery://upload?file=".

Definition fallback_template (zipPath : string) : string :=
  nl ++ "Could not auto-launch Glowfic Gallery Manager." ++ nl ++
  "Please run manually:" ++ nl ++ nl ++
  "./glowfic_scraper.py --gui" ++ nl ++ nl ++
  "Then drag the downloaded zip file: " ++ zipPath ++ nl ++ "      ".

(** [launchGlowficApp(zipPath)] with [encode] for [encodeURIComponent]
    ([None]: it throws) and [navigate] for the assignment to
    [window.location.href] ([Some err]: it throws [err]). *)
Definition launchGlowficApp (encode : string -> option string)
    (navigate : string -> option string) (zipPath : string) : settled unit * list ui_event :=
  let fallback (err : string) :=
    (Resolved tt, [ConsoleError ("Error launching Glowfic app: " ++ err);
                   Alert (js_trim (fallback_template zipPath))]) in
  match encode zipPath with
  | None => fallback "URIError: URI malformed"
  | Some encodedPath =>
      let launchUrl := launch_prefix ++ encodedPath in
      let pre := [Log ("Launching Glowfic app with: " ++ launchUrl); Navigate launchUrl] in
      match navigate launchUrl with
      | None => (Resolved tt, pre)
      | Some err => let (r, ev) := fallback err in (r, (pre ++ ev)%list)
      end
  end.

(** The fixed head of the fallback message: the tool, the script to run
    and the file to drag. *)
Definition fallback_head : string :=
  "Could not auto-launch Glowfic Gallery Manager." ++ nl ++
  "Please run manually:" ++ nl ++ nl ++
  "./glowfic_scraper.py --gui" ++ nl ++ nl ++
  "Then drag the downloaded zip file:".

(* ------------------------------------------------------------------ *)
(** ** Requests in a batch trace *)

Definition is_fetch (e : event) : bool :=
  match e with Fetch _ _ => true | _ => false end.

(* ------------------------------------------------------------------ *)
(** ** Standard base64 and percent-decoding

    Two reference definitions, not taken from the program: the base64
    encoding of RFC 4648 (the format of the [data] of an [inlineData]
    part), and the percent-decoding of RFC 3986 (how the launched
    application reads the [file] parameter). They state what [atob] and
    [encodeURIComponent] are expected to invert. *)

Definition b64_char (v : nat) : ascii :=
  ascii_of_nat (if v <? 26 then 65 + v
                else if v <? 52 then 71 + v
                else if v <? 62 then v - 4
                else if v =? 62 then 43 else 47).

Fixpoint base64_encode (bs : list nat) : list ascii :=
  match bs with
  | a :: b :: c :: r =>
      b64_char (a / 4) :: b64_char ((a mod 4) * 16 + b / 16)
      :: b64_char ((b mod 16) * 4 + c / 64) :: b64_char (c mod 64) :: base64_encode r
  | [a; b] =>
      [b64_char (a / 4); b64_char ((a mod 4) * 16 + b / 16); b64_char ((b mod 16) * 4); "="%char]
  | [a] => [b64_char (a / 4); b64_char ((a mod 4) * 16); "="%char; "="%char]
  | [] => []
  end.

Definition hex_value (c : ascii) : option nat :=
  let n := code c in
  if is_digit c then Some (n - 48)
  else if (65 <=? n) && (n <=? 70) then Some (n - 55)
  else if (97 <=? n) && (n <=? 102) then Some (n - 87)
  else None.

Fixpoint uri_decode (l : list ascii) : option (list ascii) :=
  match l with
  | [] => Some []
  | c :: r =>
      if Ascii.eqb c "%" then
        match r with
        | h1 :: h2 :: r' =>
            match hex_value h1, hex_value h2, uri_decode r' with
            | Some x, Some y, Some rest => Some (ascii_of_nat (x * 16 + y) :: rest)
            | _, _, _ => None
            end
        | _ => None
        end
      else option_map (cons c) (uri_decode r)
  end.

(* ------------------------------------------------------------------ *)
(** ** [FacecastGenerator]: the expression selection

    The categories of [expressions.json] ([actor_expressions]) are an
    association list from category keys to their expressions. The
    component computes [allCategorySelected] from the rendered state and
    updates from [prev]; for one click the two are the same list. *)

(** [list.includes(x)]. *)
Definition js_includes (l : list string) (x : string) : bool :=
  existsb (String.eqb x) l.

Definition handleExpressionToggle (expression : string) (prev : list string) : list string :=
  if js_includes prev expression
  then List.filter (fun e => negb (String.eqb e expression)) prev
  else (prev ++ [expression])%list.

(** [expressionsData.actor_expressions[category]]. *)
Definition category_lookup (actor_expressions : list (string * list string))
    (category : string) : option (list string) :=
  option_map snd (List.find (fun p => String.eqb (fst p) category) actor_expressions).

Definition handleCategoryToggle (actor_expressions : list (string * list string))
    (category : string) (selected : list string) : list string :=
  match category_lookup actor_expressions category with
  | None => selected
  | Some categoryExpressions =>
      if forallb (js_includes selected) categoryExpressions
      then List.filter (fun expr => negb (js_includes categoryExpressions expr)) selected
      else fold_left (fun acc expr => if js_includes acc expr then acc else (acc ++ [expr])%list)
                     categoryExpressions selected
  end.

Definition isCategoryFullySelected (actor_expressions : list (string * list string))
    (category : string) (selected : list string) : bool :=
  match category_lookup actor_expressions category with
  | None => false
  | Some categoryExpressions => forallb (js_includes selected) categoryExpressions
  end.

Definition isCategoryPartiallySelected (actor_expressions : list (string * list string))
    (category : string) (selected : list string) : bool :=
  match category_lookup actor_expressions category with
  | None => false
  | Some categoryExpressions =>
      existsb (js_includes selected) categoryExpressions
      && negb (isCategoryFullySelected actor_expressions category selected)
  end.

(** [selectAllExpressions]: the expressions of every category, in the
    order of [Object.values]. *)
Definition selectAllExpressions (actor_expressions : list (string * list string)) : list string :=
  concat (map snd actor_expressions).

(** The name [ExpressionGrid.handleDownload] and
    [FacecastGenerator.downloadAll] give one image:
    [facecast-${expression.replace(/\s+/g, '-').toLowerCase()}.png]. *)
Definition downloadName (expression : string) : string :=
  "facecast-" ++ js_toLowerCase (replace_ws_runs expression) ++ ".png".

(* ------------------------------------------------------------------ *)
(** ** [ApiKeyInput.handleSubmit] and [FacecastGenerator.handleApiKeySubmit] *)

(** The key passed to [onApiKeySubmit], if any. *)
Definition handleSubmit (apiKey : string) : option string :=
  let t := js_trim apiKey in
  if String.eqb t "" then None else Some t.

Definition handleApiKeySubmit (apiKey : string) (s : store) : store * calls :=
  setApiKey apiKey s.

(** Submitting the form: [handleApiKeySubmit(apiKey.trim())] when the
    trimmed key is non-empty, nothing otherwise. *)
Definition submitApiKey (input : string) (s : store) : store * calls :=
  match handleSubmit input with
  | Some key => handleApiKeySubmit key s
  | None => (s, [])
  end.

(* ------------------------------------------------------------------ *)
(** ** Sample inputs for the examples *)

Definition image_body (data : string) : json_body :=
  {| candidates := Some [{| content_parts :=
       Some [{| inlineData := Some ("image/png", data); text := None |}] |}] |}.

Definition text_body (t : string) : json_body :=
  {| candidates := Some [{| content_parts :=
       Some [{| inlineData := None; text := Some t |}] |}] |}.

(** An endpoint that fails item 1 at the network level and answers every
    other item with an image. *)
Definition sample_net (j : nat) (_ : request) : fetch_outcome :=
  if j =? 1 then NetworkError "Failed to fetch"
  else HttpResponse true 200 "" (inr (image_body "AAAA")).

(** An endpoint that answers with text only. *)
Definition text_net (_ : nat) (_ : request) : fetch_outcome :=
  HttpResponse true 200 "" (inr (text_body "I cannot draw that.")).

(** The calls of a chunk settle in reverse order of dispatch. *)
Definition reversed_order (_ : nat) (l : list nat) : list nat := rev l.

Definition sample_image := "data:image/png;base64,AAAA".

Definition sample_labels := ["happy"; "sad"; "angry"].

Definition sample_results : list FacecastResult :=
  [ {| expression := "Happy"; imageData := Some "data:image/png;base64,AAAA"; error := None |};
    {| expression := "Sad"; imageData := None; error := Some "Failed to fetch" |};
    {| expression := "Surprised & Happy!"; imageData := Some "data:image/png;base64,AQID";
       error := None |} ].

Definition sample_collision : list FacecastResult :=
  [ {| expression := "Happy!"; imageData := Some "data:image/png;base64,AAAA"; error := None |};
    {| expression := "Sad"; imageData := None; error := Some "Failed to fetch" |};
    {| expression := "happy"; imageData := Some "data:image/png;base64,AQID"; error := None |} ].

Definition sample_zip_path := "/home/user/Downloads/facecasts.glowficgirllichgallery".

Definition img_part (d : string) : part := {| inlineData := Some ("image/png", d); text := None |}.
Definition text_part (t : string) : part := {| inlineData := None; text := Some t |}.

(** A response whose first candidate mixes image and text parts, followed by
    a second candidate. *)
Definition sample_parts_body : json_body :=
  {| candidates := Some [{| content_parts :=
                              Some [img_part "AAAA"; text_part "Here you go";
                                    img_part "AQID"; text_part ""] |};
                         {| content_parts := Some [img_part "/w=="] |}] |}.

(** A response whose first candidate has only an empty text part. *)
Definition empty_parts_body : json_body :=
  {| candidates := Some [{| content_parts := Some [text_part ""] |};
                         {| content_parts := Some [img_part "AAAA"] |}] |}.

Definition sample_categories : list (string * list string) :=
  [("happy", ["smiling"; "laughing"]); ("sad", ["crying"; "frowning"])].

(* ================================================================== *)
(** * Proofs *)

Open Scope list_scope.

(** ** The [for] loop: iteration count *)

Lemma ceil_div_step (n k i : nat) :
  1 <= k -> i < n -> js_ceil_div (n - i) k = S (js_ceil_div (n - (i + k)) k).
Proof.
  intros Hk Hi. unfold js_ceil_div.
  destruct (le_lt_dec k (n - i)) as [Hle|Hlt].
  - replace (n - (i + k) + k - 1) with (n - i - 1) by lia.
    replace (n - i + k - 1) with (n - i - 1 + 1 * k) by lia.
    rewrite Nat.div_add by lia. lia.
  - replace (n - (i + k) + k - 1) with (k - 1) by lia.
    rewrite (Nat.div_small (k - 1) k) by lia.
    symmetry. apply (Nat.div_unique _ _ 1 (n - i - 1)); lia.
Qed.

Lemma ceil_div_done (n k i : nat) : 1 <= k -> n <= i -> js_ceil_div (n - i) k = 0.
Proof.
  intros Hk Hi. unfold js_ceil_div.
  replace (n - i + k - 1) with (k - 1) by lia. apply Nat.div_small. lia.
Qed.

Lemma ceil_div_le (n k : nat) : 1 <= k -> js_ceil_div n k <= n.
Proof.
  intros Hk. unfold js_ceil_div.
  destruct n as [|m].
  - rewrite Nat.div_small; lia.
  - apply Nat.Div0.div_le_upper_bound; nia.
Qed.

(** With a positive step, [fuel] iterations suffice as soon as [fuel]
    covers [ceil((n - i) / k)], and the iterations run at
    [i, i + k, i + 2k, ...]. *)
Lemma js_for_closed {B} (body : nat -> B) (k n : nat) :
  1 <= k -> forall fuel i, js_ceil_div (n - i) k <= fuel ->
  js_for fuel k n i body =
  Some (map (fun b => body (i + b * k)) (seq 0 (js_ceil_div (n - i) k))).
Proof.
  intros Hk fuel. induction fuel as [|f IH]; intros i Hf; simpl.
  - destruct (Nat.ltb_spec i n).
    + rewrite ceil_div_step in Hf by lia. lia.
    + rewrite ceil_div_done by lia. reflexivity.
  - destruct (Nat.ltb_spec i n).
    + rewrite ceil_div_step in Hf |- * by lia.
      rewrite IH by lia. simpl. do 2 f_equal.
      * f_equal. lia.
      * rewrite <- seq_shift, map_map. apply map_ext. intros b. f_equal. lia.
    + rewrite ceil_div_done by lia. reflexivity.
Qed.

(** With a step of [0] the index never moves: no fuel is enough. *)
Lemma js_for_stuck {B} (body : nat -> B) (n : nat) :
  forall fuel i, i < n -> js_for fuel 0 n i body = None.
Proof.
  intros fuel. induction fuel as [|f IH]; intros i Hi; simpl;
    destruct (Nat.ltb_spec i n); try lia; [reflexivity|].
  rewrite Nat.add_0_r, IH by lia. reflexivity.
Qed.

(** ** [Promise.all] *)

Lemma length_fill_slots {A} (outs : list A) order slots :
  length (fill_slots outs order slots) = length slots.
Proof.
  revert slots. induction order as [|x o IH]; intros slots; simpl; [done|].
  rewrite IH, length_insert. done.
Qed.

Lemma lookup_fill_slots {A} (outs : list A) order slots j :
  fill_slots outs order slots !! j =
  if decide (j ∈ order /\ j < length slots) then Some (outs !! j) else slots !! j.
Proof.
  revert slots. induction order as [|x o IH]; intros slots; cbn [fill_slots].
  - case_decide as Hd; [destruct Hd as [Hin _]; by apply not_elem_of_nil in Hin|done].
  - rewrite IH, length_insert.
    destruct (decide (j < length slots)) as [Hlt|Hge].
    + destruct (decide (x = j)) as [->|Hne].
      * rewrite list_lookup_insert_eq by done.
        rewrite (decide_True (P := j ∈ j :: o /\ j < length slots))
          by (rewrite elem_of_cons; tauto).
        destruct (decide (j ∈ o ∧ j < length slots)); reflexivity.
      * rewrite list_lookup_insert_ne by done.
        assert (j <> x) by congruence.
        destruct (decide (j ∈ o)).
        -- rewrite !decide_True by (rewrite ?elem_of_cons; tauto). done.
        -- rewrite !decide_False by (rewrite ?elem_of_cons; tauto). done.
    + rewrite !decide_False by (intros [_ ?]; lia).
      rewrite (lookup_ge_None_2 (<[x:=_]> slots)) by (rewrite length_insert; lia).
      rewrite lookup_ge_None_2 by lia. done.
Qed.

Lemma all_filled_Some {A} (outs : list A) : all_filled (Some <$> outs) = Some outs.
Proof.
  induction outs as [|x r IH]; [done|].
  change (all_filled (Some x :: (Some <$> r)) = Some (x :: r)).
  cbn [all_filled]. rewrite IH. done.
Qed.

(** Whatever the order in which the promises settle, [Promise.all]
    resolves to the values in submission order. *)
Lemma promise_all_perm {A} (outs : list A) order :
  order ≡ₚ seq 0 (length outs) -> promise_all outs order = Some outs.
Proof.
  intros Hp. unfold promise_all.
  assert (fill_slots outs order (replicate (length outs) None) = Some <$> outs) as ->.
  { apply list_eq. intros j.
    rewrite lookup_fill_slots, length_replicate, list_lookup_fmap.
    destruct (decide (j < length outs)) as [Hj|Hj].
    - rewrite decide_True.
      + destruct (lookup_lt_is_Some_2 outs j Hj) as [x ->]. done.
      + split; [|done]. rewrite Hp, elem_of_seq. lia.
    - rewrite decide_False by (intros [_ ?]; lia).
      assert (outs !! j = None) as -> by (apply lookup_ge_None_2; lia).
      rewrite lookup_ge_None_2 by (rewrite length_replicate; lia). done. }
  apply all_filled_Some.
Qed.

(** ** Lists *)

Lemma map_add_seq (i m : nat) : map (Nat.add i) (seq 0 m) = seq i m.
Proof.
  revert i. induction m as [|m IH]; intros i; simpl; [done|].
  f_equal; [lia|].
  rewrite <- seq_shift, map_map, <- (IH (S i)). apply map_ext. intros; lia.
Qed.

Lemma split_app_cons {A} (l1 l2 pre post : list A) x :
  l1 ++ l2 = pre ++ x :: post ->
  (In x l1 /\ exists m, l1 = pre ++ x :: m /\ post = m ++ l2) \/
  (exists pre', pre = l1 ++ pre' /\ l2 = pre' ++ x :: post).
Proof.
  revert pre. induction l1 as [|a l1 IH]; intros pre H; simpl in H.
  - right. exists pre. done.
  - destruct pre as [|b pre]; simpl in H; injection H as -> H'.
    + left. split; [left; done|]. exists l1. done.
    + destruct (IH pre H') as [[Hin (m & -> & ->)]|(pre' & -> & ->)].
      * left. split; [right; done|]. exists m. done.
      * right. exists pre'. done.
Qed.

Lemma js_for_inv {B} fuel k n i (body : nat -> B) cs :
  js_for fuel k n i body = Some cs ->
  (n <= i /\ cs = []) \/
  (i < n /\ exists f cs', fuel = S f /\ js_for f k n (i + k) body = Some cs' /\
                          cs = body i :: cs').
Proof.
  destruct fuel as [|f]; simpl; destruct (Nat.ltb_spec i n) as [Hi|Hi]; intros Hjs;
    try discriminate; try (injection Hjs as <-; left; done).
  destruct (js_for f k n (i + k) body) as [cs'|] eqn:E; simpl in Hjs; [|discriminate].
  injection Hjs as <-. right. split; [done|]. exists f, cs'. done.
Qed.

Lemma seq_chunk (k n i : nat) :
  i < n -> seq i (Nat.min k (n - i)) ++ seq (i + k) (n - (i + k)) = seq i (n - i).
Proof.
  intros Hi. destruct (Nat.min_spec k (n - i)) as [[Hlt ->]|[Hge ->]].
  - replace (n - i) with (k + (n - (i + k))) by lia.
    rewrite seq_app. done.
  - replace (n - (i + k)) with 0 by lia. simpl. apply app_nil_r.
Qed.

Lemma no_pause_filter (X : list event) :
  (forall ms, ~ In (Pause ms) X) -> filter is_pause X = [].
Proof.
  induction X as [|e X IH]; intros H; simpl; [done|].
  destruct e; simpl; try (apply IH; intros ms Hm; apply (H ms); right; done).
  exfalso. apply (H ms). left. done.
Qed.

(** ** The batch: one chunk *)

Section BatchFacts.
Variables (net : nat -> request -> fetch_outcome) (sched : nat -> list nat -> list nat)
          (apiKey : option string) (ref : string) (exprs : list string)
          (k : nat) (custom : option string).
Hypothesis Hk : 1 <= k.
Hypothesis Hsched : forall i l, sched i l ≡ₚ l.

Local Abbreviation n := (length exprs).
Local Abbreviation body := (chunk_body net sched apiKey ref exprs k custom).
Local Abbreviation call := (item_call net apiKey ref exprs custom).

Lemma item_call_result j :
  fst (call 0 j) =
  to_result (nth j exprs "") (generateFacecast (net j) apiKey ref (nth j exprs "") custom).1.
Proof. unfold item_call. simpl. destruct (generateFacecast _ _ _ _ _). reflexivity. Qed.

Lemma item_call_events i j :
  exists reqs, snd (call i j) = Dispatch (i + j) :: map (Fetch (i + j)) reqs.
Proof.
  unfold item_call. destruct (generateFacecast _ _ _ _ _) as [s reqs].
  exists reqs. reflexivity.
Qed.

Lemma in_calls_events_inv i pos e :
  In e (concat (map snd (map (call i) pos))) ->
  exists j, In j pos /\ (e = Dispatch (i + j) \/ exists r, e = Fetch (i + j) r).
Proof.
  rewrite in_concat. intros (l & Hl & He).
  apply in_map_iff in Hl as (c & <- & Hc). apply in_map_iff in Hc as (j & <- & Hj).
  destruct (item_call_events i j) as [reqs Hr]. rewrite Hr in He.
  exists j. split; [done|]. destruct He as [<-|He]; [left; done|].
  apply in_map_iff in He as (r & <- & _). right. exists r. done.
Qed.

Lemma in_calls_dispatch i pos j :
  In j pos -> In (Dispatch (i + j)) (concat (map snd (map (call i) pos))).
Proof.
  intros Hj. apply in_concat. exists (snd (call i j)). split.
  - apply in_map_iff. exists (call i j). split; [done|]. apply in_map_iff. eauto.
  - destruct (item_call_events i j) as [reqs ->]. left. done.
Qed.

Lemma chunk_results i :
  co_results (body i) = Some (map (fun j => fst (call 0 j)) (seq i (Nat.min k (n - i)))).
Proof.
  unfold chunk_body. cbn [co_results]. rewrite promise_all_perm.
  - rewrite map_map, <- (map_add_seq i), map_map. reflexivity.
  - rewrite Hsched, !length_map, length_seq. reflexivity.
Qed.

(** A chunk's events: its dispatches and settlements, then the pause when
    more items remain. *)
Lemma chunk_events_shape i :
  exists X,
    co_events (body i) = X ++ (if i + k <? n then [Pause 1000] else []) /\
    (forall ms, ~ In (Pause ms) X) /\
    (forall d, In (Dispatch d) X <-> i <= d < i + Nat.min k (n - i)) /\
    (forall d, In (Settle d) X <-> i <= d < i + Nat.min k (n - i)).
Proof.
  set (pos := seq 0 (Nat.min k (n - i))).
  exists (concat (map snd (map (call i) pos)) ++ map (fun j => Settle (i + j)) (sched i pos)).
  split; [unfold chunk_body; simpl; rewrite app_assoc; reflexivity|].
  split; [|split].
  - intros ms Hm. apply in_app_iff in Hm as [Hm|Hm].
    + apply in_calls_events_inv in Hm as (j & _ & [Hm|[r Hm]]); discriminate.
    + apply in_map_iff in Hm as (j & Hm & _). discriminate.
  - intros d. rewrite in_app_iff. split.
    + intros [Hm|Hm].
      * apply in_calls_events_inv in Hm as (j & Hj & [Hm|[r Hm]]); [|discriminate].
        injection Hm as ->. unfold pos in Hj. apply in_seq in Hj. lia.
      * apply in_map_iff in Hm as (j & Hm & _). discriminate.
    + intros Hd. left. replace d with (i + (d - i)) by lia.
      apply in_calls_dispatch. unfold pos. apply in_seq. lia.
  - intros d. rewrite in_app_iff. split.
    + intros [Hm|Hm].
      * apply in_calls_events_inv in Hm as (j & _ & [Hm|[r Hm]]); discriminate.
      * apply in_map_iff in Hm as (j & Hm & Hj). injection Hm as <-.
        apply (Permutation_in _ (Hsched i pos)) in Hj.
        unfold pos in Hj. apply in_seq in Hj. lia.
    + intros Hd. right. apply in_map_iff. exists (d - i). split; [f_equal; lia|].
      apply (Permutation_in _ (Permutation_sym (Hsched i pos))).
      unfold pos. apply in_seq. lia.
Qed.

(** ** The batch: the whole loop *)

Local Abbreviation trace cs := (concat (map co_events cs)).

Lemma batch_results_from fuel i cs :
  js_for fuel k n i body = Some cs ->
  exists rss, all_filled (map co_results cs) = Some rss /\
              concat rss = map (fun j => fst (call 0 j)) (seq i (n - i)).
Proof.
  revert i cs. induction fuel as [|f IH]; intros i cs Hjs;
    apply js_for_inv in Hjs as [[Hi ->]|(Hi & f' & cs' & Hf & Hjs & ->)].
  - exists []. replace (n - i) with 0 by lia. done.
  - discriminate.
  - exists []. replace (n - i) with 0 by lia. done.
  - injection Hf as <-. destruct (IH _ _ Hjs) as (rss & Hall & Hcat).
    eexists. cbn [map all_filled]. rewrite chunk_results, Hall. split; [reflexivity|].
    cbn [concat]. rewrite Hcat, <- map_app, seq_chunk by lia. reflexivity.
Qed.

Lemma trace_dispatch_all fuel i cs :
  js_for fuel k n i body = Some cs ->
  forall d, i <= d -> d < n -> In (Dispatch d) (trace cs).
Proof.
  revert i cs. induction fuel as [|f IH]; intros i cs Hjs d Hid Hdn;
    apply js_for_inv in Hjs as [[Hi ->]|(Hi & f' & cs' & Hf & Hjs & ->)]; try lia.
  injection Hf as <-. cbn [map concat]. apply in_app_iff.
  destruct (chunk_events_shape i) as (X & -> & _ & HD & _).
  destruct (le_lt_dec (i + k) d).
  - right. apply (IH (i + k)); done.
  - left. apply in_app_iff. left. apply HD. lia.
Qed.

(** A dispatch is preceded by the settlement of every item of an earlier
    chunk; chunk [b] holds the items [b*k .. b*k + k - 1]. *)
Lemma trace_settled_before fuel b0 cs :
  js_for fuel k n (b0 * k) body = Some cs ->
  forall pre post j j' b, trace cs = pre ++ Dispatch j :: post ->
  b0 * k <= j' -> j' < n -> j' < b * k -> b * k <= j -> In (Settle j') pre.
Proof.
  revert b0 cs. induction fuel as [|f IH]; intros b0 cs Hjs pre post j j' b Htr H1 H2 H3 H4;
    apply js_for_inv in Hjs as [[Hi ->]|(Hi & f' & cs' & Hf & Hjs & ->)].
  - simpl in Htr. by apply app_cons_not_nil in Htr.
  - discriminate.
  - simpl in Htr. by apply app_cons_not_nil in Htr.
  - injection Hf as <-. cbn [map concat] in Htr.
    destruct (chunk_events_shape (b0 * k)) as (X & HX & HP & HD & HS).
    rewrite HX in Htr.
    apply split_app_cons in Htr as [[Hin _]|(pre' & -> & Hrest)].
    + apply in_app_iff in Hin as [Hin|Hin].
      * exfalso. apply HD in Hin. pose proof (Nat.le_min_l k (n - b0 * k)).
        assert (b0 < b) by (apply (Nat.mul_lt_mono_pos_r k); lia).
        assert (S b0 * k <= b * k) by (apply Nat.mul_le_mono_r; lia). nia.
      * destruct (_ <? _); simpl in Hin; [destruct Hin as [Hin|[]]|destruct Hin];
          discriminate.
    + apply in_app_iff. destruct (le_lt_dec (b0 * k + k) j').
      * right. replace (b0 * k + k) with (S b0 * k) in Hjs by lia.
        apply (IH (S b0) cs' Hjs pre' post j j' b); [done|lia|lia|lia|lia].
      * left. apply in_app_iff. left. apply HS. lia.
Qed.

Lemma trace_pause_count fuel i cs :
  js_for fuel k n i body = Some cs ->
  length (filter is_pause (trace cs)) = js_ceil_div (n - i) k - 1.
Proof.
  revert i cs. induction fuel as [|f IH]; intros i cs Hjs;
    apply js_for_inv in Hjs as [[Hi ->]|(Hi & f' & cs' & Hf & Hjs & ->)].
  - rewrite ceil_div_done by lia. done.
  - discriminate.
  - rewrite ceil_div_done by lia. done.
  - injection Hf as <-. cbn [map concat].
    destruct (chunk_events_shape i) as (X & -> & HP & _ & _).
    rewrite !filter_app, !length_app, no_pause_filter by done.
    rewrite (IH _ _ Hjs), (ceil_div_step n k i) by lia.
    destruct (Nat.ltb_spec (i + k) n).
    + rewrite (ceil_div_step n k (i + k)) by lia. simpl. lia.
    + rewrite (ceil_div_done n k (i + k)) by lia. simpl. lia.
Qed.

(** Every pause sits between two chunks: after all of chunk [b - 1], before
    any of chunk [b], and never after the last chunk. *)
Lemma trace_pause_between fuel b0 cs :
  js_for fuel k n (b0 * k) body = Some cs ->
  forall pre post ms, trace cs = pre ++ Pause ms :: post ->
  ms = 1000 /\
  exists b, b0 < b /\ b < b0 + js_ceil_div (n - b0 * k) k /\
    (forall j, b0 * k <= j -> j < n -> j < b * k -> In (Settle j) pre /\ In (Dispatch j) pre) /\
    (forall j, b * k <= j -> j < n -> In (Dispatch j) post /\ ~ In (Dispatch j) pre).
Proof.
  revert b0 cs. induction fuel as [|f IH]; intros b0 cs Hjs pre post ms Htr;
    apply js_for_inv in Hjs as [[Hi ->]|(Hi & f' & cs' & Hf & Hjs & ->)].
  - simpl in Htr. by apply app_cons_not_nil in Htr.
  - discriminate.
  - simpl in Htr. by apply app_cons_not_nil in Htr.
  - injection Hf as <-. cbn [map concat] in Htr.
    destruct (chunk_events_shape (b0 * k)) as (X & HX & HP & HD & HS).
    rewrite HX in Htr.
    rewrite (ceil_div_step n k (b0 * k)) by lia.
    apply split_app_cons in Htr as [[Hin (m & Hm & ->)]|(pre' & -> & Hrest)].
    + (* the pause closing this chunk *)
      destruct (Nat.ltb_spec (b0 * k + k) n) as [Hmore|Hlast].
      2:{ rewrite app_nil_r in Hin. exfalso. by apply (HP ms). }
      apply in_app_iff in Hin as [Hin|[Hin|[]]]; [exfalso; by apply (HP ms)|].
      injection Hin as <-. split; [done|].
      apply split_app_cons in Hm as [[Hin _]|(pre' & -> & Hp)];
        [exfalso; by apply (HP 1000)|].
      destruct pre' as [|e pre']; simpl in Hp.
      2:{ injection Hp as _ Hp. by apply app_cons_not_nil in Hp. }
      injection Hp as Hm. subst m. rewrite app_nil_r.
      exists (S b0). rewrite (ceil_div_step n k (b0 * k + k)) by lia.
      split; [lia|]. split; [lia|]. split.
      * intros j Hj1 Hj2 Hj3. split; [apply HS|apply HD]; lia.
      * intros j Hj1 Hj2. split.
        -- apply in_app_iff. right.
           replace (b0 * k + k) with (S b0 * k) in Hjs by lia.
           apply (trace_dispatch_all _ _ _ Hjs); lia.
        -- intros Hin. apply HD in Hin. lia.
    + (* a later pause *)
      replace (b0 * k + k) with (S b0 * k) in Hjs by lia.
      destruct (IH (S b0) cs' Hjs pre' post ms Hrest) as (Hms & b & Hb1 & Hb2 & Hbefore & Hafter).
      replace (S b0 * k) with (b0 * k + k) in Hb2 by lia.
      split; [done|]. exists b. split; [lia|]. split; [lia|]. split.
      * intros j Hj1 Hj2 Hj3. rewrite !in_app_iff.
        destruct (le_lt_dec (S b0 * k) j).
        -- destruct (Hbefore j) as [? ?]; [lia|lia|lia|]. tauto.
        -- split; left; left; [apply HS|apply HD]; lia.
      * intros j Hj1 Hj2. destruct (Hafter j Hj1 Hj2) as [Hpost Hpre].
        split; [done|]. rewrite !in_app_iff. intros [[Hin|Hin]|Hin].
        -- apply HD in Hin. nia.
        -- destruct (_ <? _); simpl in Hin; [destruct Hin as [Hin|[]]|destruct Hin];
             discriminate.
        -- done.
Qed.

(** Every gap between two chunks holds a pause: for each later chunk [b]
    there is a pause of 1000 ms after all of the earlier chunks and before
    any item of chunk [b] is dispatched. *)
Lemma trace_pause_gap fuel b0 cs :
  js_for fuel k n (b0 * k) body = Some cs ->
  forall b, b0 < b -> b * k < n ->
  exists pre post, trace cs = pre ++ Pause 1000 :: post /\
    (forall j, b0 * k <= j -> j < b * k -> In (Settle j) pre /\ In (Dispatch j) pre) /\
    (forall j, b * k <= j -> ~ In (Dispatch j) pre).
Proof.
  revert b0 cs. induction fuel as [|f IH]; intros b0 cs Hjs b Hb Hbn;
    apply js_for_inv in Hjs as [[Hi ->]|(Hi & f' & cs' & Hf & Hjs & ->)].
  - exfalso. assert (b0 * k <= b * k) by (apply Nat.mul_le_mono_r; lia). lia.
  - discriminate.
  - exfalso. assert (b0 * k <= b * k) by (apply Nat.mul_le_mono_r; lia). lia.
  - injection Hf as <-. cbn [map concat].
    destruct (chunk_events_shape (b0 * k)) as (X & HX & HP & HD & HS).
    assert (Hnext : S b0 * k <= b * k) by (apply Nat.mul_le_mono_r; lia).
    assert (Hmin : Nat.min k (n - b0 * k) = k) by lia.
    rewrite Hmin in HD, HS.
    destruct (Nat.ltb_spec (b0 * k + k) n) as [_|Hlast]; [|lia].
    rewrite HX. replace (b0 * k + k) with (S b0 * k) in Hjs by lia.
    destruct (Nat.eq_dec b (S b0)) as [->|Hb'].
    + exists X, (trace cs'). split; [rewrite <- app_assoc; reflexivity|]. split.
      * intros j Hj1 Hj2. split; [apply HS|apply HD]; lia.
      * intros j Hj Hin. apply HD in Hin. lia.
    + destruct (IH (S b0) cs' Hjs b ltac:(lia) Hbn) as (pre' & post & Htr & Hbefore & Hafter).
      exists ((X ++ [Pause 1000]) ++ pre'), post. split; [rewrite Htr, app_assoc; reflexivity|].
      split.
      * intros j Hj1 Hj2. rewrite !in_app_iff.
        destruct (le_lt_dec (S b0 * k) j).
        -- destruct (Hbefore j) as [? ?]; [lia|lia|]. tauto.
        -- split; left; left; [apply HS|apply HD]; lia.
      * intros j Hj. rewrite !in_app_iff. intros [[Hin|[Hin|[]]]|Hin].
        -- apply HD in Hin. lia.
        -- discriminate.
        -- exact (Hafter j Hj Hin).
Qed.

End BatchFacts.

Lemma map_as_fmap {A B} (f : A -> B) (l : list A) : map f l = f <$> l.
Proof. induction l as [|x l IH]; simpl; [done|]. by rewrite IH. Qed.

Lemma lookup_map_seq {A} (f : nat -> A) (m i : nat) :
  i < m -> map f (seq 0 m) !! i = Some (f i).
Proof.
  intros Hi. rewrite map_as_fmap, list_lookup_fmap, lookup_seq_lt by done. done.
Qed.

Lemma js_for_length {B} (body : nat -> B) (k n : nat) :
  1 <= k -> forall fuel i cs, js_for fuel k n i body = Some cs ->
  length cs = js_ceil_div (n - i) k /\ js_ceil_div (n - i) k <= fuel.
Proof.
  intros Hk fuel. induction fuel as [|f IH]; intros i cs Hjs;
    apply js_for_inv in Hjs as [[Hi ->]|(Hi & f' & cs' & Hf & Hjs & ->)];
    try discriminate; try (rewrite ceil_div_done by lia; simpl; lia).
  injection Hf as <-. destruct (IH _ _ Hjs) as [Hl Hf].
  rewrite ceil_div_step by lia. simpl. lia.
Qed.

Lemma generateFacecast_resolved fetch apiKey ref e custom g reqs :
  generateFacecast fetch apiKey ref e custom = (Resolved g, reqs) ->
  truthy (imageData_of g) || truthy (textResponse_of g) = true.
Proof.
  unfold generateFacecast. destruct apiKey as [key|]; [|discriminate].
  destruct (truthy (Some key)); [|discriminate].
  destruct (fetch _) as [m|ok status body json]; [discriminate|].
  destruct ok; [|discriminate]. destruct json as [m|b]; [discriminate|].
  destruct (truthy (imageData_of (read_body b))) eqn:Hi,
           (truthy (textResponse_of (read_body b))) eqn:Ht; simpl;
    intros H; inversion H; subst; rewrite ?Hi, ?Ht; done.
Qed.

Lemma generateFacecast_no_key fetch apiKey ref e custom :
  truthy apiKey = false ->
  generateFacecast fetch apiKey ref e custom = (Rejected missing_key_msg, []).
Proof.
  intros H. unfold generateFacecast. destruct apiKey as [key|]; [|done].
  rewrite H. done.
Qed.

Section BatchRun.
Variables (net : nat -> request -> fetch_outcome) (sched : nat -> list nat -> list nat)
          (apiKey : option string) (ref : string) (exprs : list string)
          (k : nat) (custom : option string).
Hypothesis Hk : 1 <= k.
Hypothesis Hsched : forall i l, sched i l ≡ₚ l.

Local Abbreviation n := (length exprs).
Local Abbreviation body := (chunk_body net sched apiKey ref exprs k custom).
Local Abbreviation call := (item_call net apiKey ref exprs custom).

(** The whole run: the chunks of the loop, the results in submission
    order and the events of the chunks one after the other. *)
Lemma batch_run_spec :
  exists cs,
    batch_chunks net sched apiKey ref exprs k custom n = Some cs /\
    cs = map (fun b => body (b * k)) (seq 0 (js_ceil_div n k)) /\
    generateFacecastBatch net sched apiKey ref exprs k custom =
      Some (Resolved (map (fun j => fst (call 0 j)) (seq 0 n)), concat (map co_events cs)).
Proof.
  assert (Hc : js_for n k n 0 body =
               Some (map (fun b => body (b * k)) (seq 0 (js_ceil_div n k)))).
  { rewrite js_for_closed by (rewrite ?Nat.sub_0_r; auto using ceil_div_le).
    rewrite Nat.sub_0_r. reflexivity. }
  eexists. split; [exact Hc|]. split; [reflexivity|].
  unfold generateFacecastBatch, batch_chunks. rewrite Hc.
  destruct (batch_results_from net sched apiKey ref exprs k custom Hk Hsched n 0 _ Hc)
    as (rss & Hall & Hcat).
  rewrite Hall, Hcat, Nat.sub_0_r. reflexivity.
Qed.

Lemma item_result_lookup i e :
  exprs !! i = Some e ->
  map (fun j => fst (call 0 j)) (seq 0 n) !! i =
  Some (to_result e (generateFacecast (net i) apiKey ref e custom).1).
Proof.
  intros He. rewrite lookup_map_seq by (eapply lookup_lt_Some; eauto).
  rewrite item_call_result, (nth_lookup_Some exprs i "" e He). reflexivity.
Qed.

Lemma fetch_in_chunk i d r :
  In (Fetch d r) (co_events (body i)) ->
  exists j, In (Fetch d r) (snd (call i j)).
Proof.
  unfold chunk_body. cbn [co_events]. rewrite !in_app_iff.
  intros [Hin|[Hin|Hin]].
  - apply in_concat in Hin as (l & Hl & Hin).
    apply in_map_iff in Hl as (c & <- & Hc). apply in_map_iff in Hc as (j & <- & _).
    eauto.
  - apply in_map_iff in Hin as (j & Hj & _). discriminate.
  - destruct (_ <? _); simpl in Hin; [destruct Hin as [Hin|[]]|destruct Hin];
      discriminate.
Qed.

End BatchRun.

Lemma map_nth_seq {A} (l : list A) (d : A) :
  map (fun j => nth j l d) (seq 0 (length l)) = l.
Proof.
  induction l as [|x l IH]; simpl; [done|]. f_equal.
  rewrite <- seq_shift, map_map. exact IH.
Qed.

Lemma chunk_items net sched apiKey ref exprs k custom i :
  co_items (chunk_body net sched apiKey ref exprs k custom i) =
  seq i (Nat.min k (length exprs - i)).
Proof. unfold chunk_body. cbn [co_items]. apply map_add_seq. Qed.

(* ------------------------------------------------------------------ *)
(** ** Claims about [generateFacecastBatch] *)

(** Claim C1: for every limit [concurrencyLimit >= 1], every network
    behaviour and every order in which the concurrent calls settle,
    [generateFacecastBatch] resolves to as many results as there are
    expressions, and the [i]-th result carries the [i]-th expression. *)
Theorem generateFacecastBatch_labels net sched apiKey ref exprs k custom :
  1 <= k -> (forall i l, sched i l ≡ₚ l) ->
  exists rs ev,
    generateFacecastBatch net sched apiKey ref exprs k custom = Some (Resolved rs, ev) /\
    length rs = length exprs /\
    forall i e, exprs !! i = Some e -> exists r, rs !! i = Some r /\ expression r = e.
Proof.
  intros Hk Hs.
  destruct (batch_run_spec net sched apiKey ref exprs k custom Hk Hs) as (cs & _ & _ & Hgen).
  do 2 eexists. split; [exact Hgen|]. split.
  - rewrite length_map, length_seq. reflexivity.
  - intros i e He. eexists. split; [apply item_result_lookup; exact He|].
    destruct (generateFacecast _ _ _ _ _).1; reflexivity.
Qed.

(** Claim C2 (as the code has it): with no API key ([null] or [""]) and a
    limit [>= 1], no request is ever sent, and [generateFacecastBatch] does
    not fail: it resolves, and every result records the missing-key error
    and no image. *)
Theorem generateFacecastBatch_missing_key net sched apiKey ref exprs k custom :
  truthy apiKey = false -> 1 <= k -> (forall i l, sched i l ≡ₚ l) ->
  exists ev,
    generateFacecastBatch net sched apiKey ref exprs k custom =
      Some (Resolved (map (fun e => {| expression := e; imageData := None;
                                       error := Some missing_key_msg |}) exprs), ev) /\
    forall d r, ~ In (Fetch d r) ev.
Proof.
  intros Hkey Hk Hs.
  destruct (batch_run_spec net sched apiKey ref exprs k custom Hk Hs)
    as (cs & _ & Hcs & Hgen).
  eexists. split.
  - rewrite Hgen. do 3 f_equal.
    rewrite <- (map_nth_seq exprs "") at 2. rewrite map_map. apply map_ext. intros j.
    rewrite item_call_result, generateFacecast_no_key by exact Hkey. reflexivity.
  - intros d r Hin. rewrite Hcs in Hin.
    apply in_concat in Hin as (l & Hl & Hin).
    apply in_map_iff in Hl as (c & <- & Hc). apply in_map_iff in Hc as (b & <- & _).
    apply fetch_in_chunk in Hin as (j & Hin).
    unfold item_call in Hin. rewrite generateFacecast_no_key in Hin by exact Hkey.
    simpl in Hin. destruct Hin as [Hin|[]]. discriminate.
Qed.

(** Claim C3 (as the code has it): the [i]-th result depends only on the
    [i]-th call. A rejected call gives an error and no image; a resolved
    call gives no error and the response's image, which the service
    resolves with as soon as the response has an image or a text part. *)
Theorem generateFacecastBatch_outcomes net sched apiKey ref exprs k custom :
  1 <= k -> (forall i l, sched i l ≡ₚ l) ->
  exists rs ev,
    generateFacecastBatch net sched apiKey ref exprs k custom = Some (Resolved rs, ev) /\
    length rs = length exprs /\
    forall i e, exprs !! i = Some e ->
      exists r, rs !! i = Some r /\ expression r = e /\
        match (generateFacecast (net i) apiKey ref e custom).1 with
        | Rejected m => error r = Some m /\ imageData r = None
        | Resolved g => error r = None /\ imageData r = imageData_of g /\
                        truthy (imageData_of g) || truthy (textResponse_of g) = true
        end.
Proof.
  intros Hk Hs.
  destruct (batch_run_spec net sched apiKey ref exprs k custom Hk Hs) as (cs & _ & _ & Hgen).
  do 2 eexists. split; [exact Hgen|]. split.
  - rewrite length_map, length_seq. reflexivity.
  - intros i e He. eexists. split; [apply item_result_lookup; exact He|].
    destruct (generateFacecast (net i) apiKey ref e custom) as [[g|m] reqs] eqn:Hg;
      simpl; [|done].
    split; [done|]. split; [done|]. split; [done|].
    eapply generateFacecast_resolved. exact Hg.
Qed.

(** Claim C4: with [n] expressions and a limit [k >= 1], the loop runs
    [ceil(n / k)] chunks of consecutive items (all of size [k] but
    possibly the last); no item is dispatched before every item of every
    earlier chunk has settled; and there are [ceil(n / k) - 1] pauses of
    1000 ms, each between two consecutive chunks, none after the last, and
    every gap between two consecutive chunks holds one. *)
Theorem generateFacecastBatch_chunking net sched apiKey ref exprs k custom :
  1 <= k -> (forall i l, sched i l ≡ₚ l) ->
  exists cs rs ev,
    batch_chunks net sched apiKey ref exprs k custom (length exprs) = Some cs /\
    generateFacecastBatch net sched apiKey ref exprs k custom = Some (Resolved rs, ev) /\
    ev = concat (map co_events cs) /\
    length cs = js_ceil_div (length exprs) k /\
    (forall b c, cs !! b = Some c ->
       co_items c = seq (b * k) (Nat.min k (length exprs - b * k))) /\
    (forall pre post j j' b, ev = pre ++ Dispatch j :: post ->
       j' < length exprs -> j' < b * k -> b * k <= j -> In (Settle j') pre) /\
    length (filter is_pause ev) = js_ceil_div (length exprs) k - 1 /\
    (forall pre post ms, ev = pre ++ Pause ms :: post ->
       ms = 1000 /\
       exists b, 1 <= b < js_ceil_div (length exprs) k /\
         (forall j, j < length exprs -> j < b * k -> In (Settle j) pre /\ In (Dispatch j) pre) /\
         (forall j, b * k <= j -> j < length exprs ->
            In (Dispatch j) post /\ ~ In (Dispatch j) pre)) /\
    (forall b, 1 <= b -> b * k < length exprs ->
       exists pre post, ev = pre ++ Pause 1000 :: post /\
         (forall j, j < b * k -> In (Settle j) pre /\ In (Dispatch j) pre) /\
         (forall j, b * k <= j -> ~ In (Dispatch j) pre)).
Proof.
  intros Hk Hs.
  destruct (batch_run_spec net sched apiKey ref exprs k custom Hk Hs)
    as (cs & Hcs & Hmap & Hgen).
  unfold batch_chunks in Hcs.
  assert (Hcs0 : js_for (length exprs) k (length exprs) (0 * k)
                   (chunk_body net sched apiKey ref exprs k custom) = Some cs) by exact Hcs.
  exists cs. do 2 eexists.
  split; [exact Hcs|]. split; [exact Hgen|]. split; [reflexivity|].
  split; [rewrite Hmap, length_map, length_seq; reflexivity|].
  split; [|split; [|split; [|split]]].
  - intros b c Hc. rewrite Hmap, map_as_fmap, list_lookup_fmap in Hc.
    destruct (seq 0 _ !! b) as [b'|] eqn:Hb; [|discriminate].
    apply lookup_seq in Hb as [-> _]. injection Hc as <-. apply chunk_items.
  - intros pre post j j' b Htr Hj' Hb1 Hb2.
    eapply (trace_settled_before net sched apiKey ref exprs k custom Hk Hs _ 0 cs Hcs0);
      [exact Htr|lia|exact Hj'|exact Hb1|exact Hb2].
  - rewrite (trace_pause_count net sched apiKey ref exprs k custom Hk Hs _ 0 cs Hcs), Nat.sub_0_r.
    reflexivity.
  - intros pre post ms Htr.
    destruct (trace_pause_between net sched apiKey ref exprs k custom Hk Hs _ 0 cs Hcs0
                pre post ms Htr) as (Hms & b & Hb1 & Hb2 & Hbefore & Hafter).
    split; [exact Hms|]. exists b. simpl in Hb2. rewrite Nat.sub_0_r in Hb2.
    split; [lia|]. split.
    + intros j Hj1 Hj2. apply Hbefore; lia.
    + exact Hafter.
  - intros b Hb Hbn.
    destruct (trace_pause_gap net sched apiKey ref exprs k custom Hk Hs _ 0 cs Hcs0 b
                ltac:(lia) Hbn) as (pre & post & Htr & Hbefore & Hafter).
    exists pre, post. split; [exact Htr|]. split; [|exact Hafter].
    intros j Hj. apply Hbefore; lia.
Qed.

(** Claim C10: with a limit [k >= 1] the loop of [generateFacecastBatch]
    exits for every list of [n] expressions, after exactly [ceil(n / k)]
    iterations (fewer iterations never reach the exit); with a limit of
    [0] and at least one expression the index never moves and the loop
    never exits, so the batch never returns. *)
Theorem generateFacecastBatch_loop_termination net sched apiKey ref exprs k custom :
  (1 <= k ->
     (exists cs, batch_chunks net sched apiKey ref exprs k custom (length exprs) = Some cs) /\
     forall fuel cs, batch_chunks net sched apiKey ref exprs k custom fuel = Some cs ->
       length cs = js_ceil_div (length exprs) k /\ js_ceil_div (length exprs) k <= fuel) /\
  (k = 0 -> exprs <> [] ->
     (forall fuel, batch_chunks net sched apiKey ref exprs k custom fuel = None) /\
     generateFacecastBatch net sched apiKey ref exprs k custom = None).
Proof.
  split.
  - intros Hk. split.
    + unfold batch_chunks. rewrite js_for_closed by (rewrite ?Nat.sub_0_r; auto using ceil_div_le).
      eexists. reflexivity.
    + intros fuel cs Hcs. unfold batch_chunks in Hcs.
      apply js_for_length in Hcs as [Hl Hf]; [|exact Hk].
      rewrite Nat.sub_0_r in Hl, Hf. split; assumption.
  - intros -> Hne. destruct exprs as [|e rest]; [done|].
    assert (Hstuck : forall fuel,
              batch_chunks net sched apiKey ref (e :: rest) 0 custom fuel = None).
    { intros fuel. apply js_for_stuck. simpl. lia. }
    split; [exact Hstuck|].
    unfold generateFacecastBatch. rewrite Hstuck. reflexivity.
Qed.

(* ------------------------------------------------------------------ *)
(** ** Filename normalisation *)

Lemma spec_runs_cons c r :
  exists ds rest, spec_runs (c :: r) = (c :: ds) :: rest.
Proof.
  simpl. destruct (spec_runs r) as [|[|d ds] rest]; eauto.
  destruct (Bool.eqb (is_js_space c) (is_js_space d)); eauto.
Qed.

Lemma replace_ws_runs_go_spec l :
  replace_ws_runs_go false l = concat (map spec_run_text (spec_runs l)) /\
  replace_ws_runs_go true l =
    match spec_runs l with
    | (d :: _) :: rest =>
        if is_js_space d then concat (map spec_run_text rest)
        else concat (map spec_run_text (spec_runs l))
    | _ => concat (map spec_run_text (spec_runs l))
    end.
Proof.
  induction l as [|c r IH]; [split; reflexivity|].
  destruct r as [|c' r'].
  { simpl. destruct (is_js_space c); split; reflexivity. }
  destruct (spec_runs_cons c' r') as (ds & rest & Hr).
  destruct IH as [IHf IHt]. rewrite Hr in IHf, IHt.
  change (spec_runs (c :: c' :: r')) with
    (match spec_runs (c' :: r') with
     | (d :: ds) :: rest =>
         if Bool.eqb (is_js_space c) (is_js_space d) then (c :: d :: ds) :: rest
         else [c] :: (d :: ds) :: rest
     | _ => [[c]]
     end).
  rewrite Hr.
  change (replace_ws_runs_go false (c :: c' :: r')) with
    (if is_js_space c then "-"%char :: replace_ws_runs_go true (c' :: r')
     else c :: replace_ws_runs_go false (c' :: r')).
  change (replace_ws_runs_go true (c :: c' :: r')) with
    (if is_js_space c then replace_ws_runs_go true (c' :: r')
     else c :: replace_ws_runs_go false (c' :: r')).
  rewrite IHt, IHf.
  destruct (is_js_space c) eqn:Hc, (is_js_space c') eqn:Hc'; simpl;
    rewrite ?Hc, ?Hc'; simpl; split; reflexivity.
Qed.

Lemma safeExpression_spec label : safeExpression label = spec_normalize label.
Proof.
  unfold safeExpression, spec_normalize, js_toLowerCase, replace_ws_runs, strip_unsafe.
  rewrite !list_ascii_of_string_of_list_ascii.
  destruct (replace_ws_runs_go_spec (filter keep_char (list_ascii_of_string label))) as [H _].
  rewrite H. reflexivity.
Qed.

Lemma code_ascii_of_nat n : n < 256 -> code (ascii_of_nat n) = n.
Proof. intros Hn. unfold code. apply nat_ascii_embedding. exact Hn. Qed.

Lemma code_lt_256 c : code c < 256.
Proof. unfold code. apply nat_ascii_bounded. Qed.

Lemma replace_ws_runs_go_chars b l :
  Forall (fun c => keep_char c = true) l ->
  Forall (fun c => (is_alnum c || (code c =? 45)) = true)
         (replace_ws_runs_go b l).
Proof.
  revert b. induction l as [|c r IH]; intros b Hl; [constructor|].
  apply Forall_cons in Hl as [Hc Hr]. simpl.
  destruct (is_js_space c) eqn:Hs.
  - destruct b; [apply IH; exact Hr|]. constructor; [reflexivity|]. apply IH; exact Hr.
  - constructor; [|apply IH; exact Hr].
    unfold keep_char in Hc. rewrite Hs, orb_false_r in Hc. exact Hc.
Qed.

Lemma js_lower_char_class c :
  (is_alnum c || (code c =? 45)) = true -> filename_char (js_lower_char c) = true.
Proof.
  unfold filename_char, js_lower_char, is_alnum, is_upper, is_lower, is_digit.
  pose proof (code_lt_256 c) as Hb.
  destruct ((65 <=? code c) && (code c <=? 90)) eqn:Hu.
  - intros _. apply andb_true_iff in Hu as [H1 H2].
    apply Nat.leb_le in H1, H2.
    rewrite code_ascii_of_nat by lia.
    assert ((97 <=? code c + 32) && (code c + 32 <=? 122) = true) as ->
      by (apply andb_true_iff; split; apply Nat.leb_le; lia).
    reflexivity.
  - simpl. intros H. exact H.
Qed.

(** Claim C6: the archive name of a result labelled [label] is
    [facecast-<normalised label>.png], the normalisation being, as the spec
    words it, removal of every character outside [A-Za-z0-9], whitespace
    and [-], one hyphen per whitespace run, and lowercasing; the label
    ["Surprised & Happy!"] gives ["facecast-surprised-happy.png"], and
    every normalised label is made of [a-z], [0-9] and [-] only. *)
Theorem imageFilename_normalization :
  (forall label,
     imageFilename label = String.append "facecast-" (String.append (spec_normalize label) ".png")) /\
  imageFilename "Surprised & Happy!" = "facecast-surprised-happy.png" /\
  (forall label, Forall (fun c => filename_char c = true)
                        (list_ascii_of_string (safeExpression label))).
Proof.
  split; [|split].
  - intros label. unfold imageFilename. rewrite safeExpression_spec. reflexivity.
  - vm_compute. reflexivity.
  - intros label. unfold safeExpression, js_toLowerCase, replace_ws_runs, strip_unsafe.
    rewrite !list_ascii_of_string_of_list_ascii.
    apply Forall_map.
    eapply Forall_impl; [|intros c Hc; apply js_lower_char_class; exact Hc].
    apply replace_ws_runs_go_chars.
    apply Forall_forall. intros c Hc. apply list_elem_of_filter in Hc as [Hc _].
    destruct (keep_char c); [reflexivity | contradiction].
Qed.

(* ------------------------------------------------------------------ *)
(** ** The archive: JSZip's overwrite-in-place semantics *)

Lemma in_zip_file_names nm d z x :
  In x (map fst (zip_file nm d z)) <-> x = nm \/ In x (map fst z).
Proof.
  induction z as [|[n0 d0] r IH]; simpl; [intuition congruence|].
  destruct (String.eqb_spec n0 nm) as [->|Hne]; simpl; [intuition congruence|].
  rewrite IH. intuition congruence.
Qed.

Lemma zip_file_NoDup nm d z :
  List.NoDup (map fst z) -> List.NoDup (map fst (zip_file nm d z)).
Proof.
  induction z as [|[n0 d0] r IH]; simpl; intros Hnd.
  - constructor; [intros []|constructor].
  - inversion Hnd as [|? ? Hn Hr]; subst.
    destruct (String.eqb_spec n0 nm) as [->|Hne]; simpl.
    + constructor; assumption.
    + constructor; [|apply IH; exact Hr].
      rewrite in_zip_file_names. intros [->|H]; [apply Hne; reflexivity|exact (Hn H)].
Qed.

Lemma in_zip_file nm d z x v :
  List.NoDup (map fst z) ->
  In (x, v) (zip_file nm d z) <-> (x = nm /\ v = d) \/ (x <> nm /\ In (x, v) z).
Proof.
  induction z as [|[n0 d0] r IH]; simpl; intros Hnd.
  - split; [intros [H|[]]; injection H; intros; subst; tauto|].
    intros [[-> ->]|[_ []]]; left; reflexivity.
  - inversion Hnd as [|? ? Hn Hr]; subst.
    destruct (String.eqb_spec n0 nm) as [->|Hne]; simpl.
    + split.
      * intros [H|H]; [injection H; intros; subst; tauto|].
        right. split; [|tauto]. intros ->. apply Hn. apply in_map_iff.
        exists (nm, v). split; [reflexivity|exact H].
      * intros [[-> ->]|[Hx [H|H]]]; [left; reflexivity| |right; exact H].
        injection H; intros; subst; contradiction.
    + rewrite (IH Hr). split.
      * intros [H|H]; [|tauto]. injection H; intros; subst.
        right; split; [exact Hne|left; reflexivity].
      * intros [H|[Hx [H|H]]]; [tauto|left; exact H|tauto].
Qed.

Lemma zip_file_not_nil nm d z : zip_file nm d z <> [].
Proof. destruct z as [|[n0 d0] r]; simpl; [discriminate|]. destruct (String.eqb n0 nm); discriminate. Qed.

Lemma add_results_fold z rs ops :
  Forall2 (fun r p => imageFilename (expression r) = fst p /\
                      decode_payload (default "" (imageData r)) = Some (snd p)) rs ops ->
  add_results z rs = Resolved (fold_left zip_step ops z).
Proof.
  intros H. revert z. induction H as [|r p rs ops [Hn Hd] _ IH]; intros z; [reflexivity|].
  simpl. rewrite Hd, Hn. apply IH.
Qed.

Lemma last_payload_snoc x ops p :
  last_payload x (ops ++ [p]) =
  if String.eqb (fst p) x then Some (snd p) else last_payload x ops.
Proof.
  unfold last_payload. rewrite rev_app_distr. simpl.
  destruct (String.eqb (fst p) x); reflexivity.
Qed.

Lemma fold_zip_spec ops :
  List.NoDup (map fst (fold_left zip_step ops [])) /\
  (forall x, In x (map fst (fold_left zip_step ops [])) <-> In x (map fst ops)) /\
  (forall x v, In (x, v) (fold_left zip_step ops []) <-> last_payload x ops = Some v).
Proof.
  induction ops as [|p ops IH] using rev_ind.
  - split; [constructor|]. split; [simpl; tauto|]. intros x v. simpl.
    unfold last_payload. simpl. split; [intros []|discriminate].
  - destruct IH as (Hnd & Hnames & Hin).
    rewrite fold_left_app. simpl.
    set (F := fold_left zip_step ops []) in *. unfold zip_step.
    split; [apply zip_file_NoDup; exact Hnd|]. split.
    + intros x. rewrite in_zip_file_names, Hnames, map_app, in_app_iff. simpl. intuition congruence.
    + intros x v. rewrite (in_zip_file _ _ _ _ _ Hnd), last_payload_snoc, Hin.
      destruct (String.eqb_spec (fst p) x) as [<-|Hne].
      * split; [intros [[_ ->]|[Hx _]]; [reflexivity|contradiction]|].
        intros H. injection H; intros ->. left; split; reflexivity.
      * split; [intros [[-> _]|[_ H]]; [contradiction|exact H]|].
        intros H. right. split; [intros ->; apply Hne; reflexivity|exact H].
Qed.

Lemma add_results_not_nil z rs z' :
  add_results z rs = Resolved z' -> z <> [] \/ rs <> [] -> z' <> [].
Proof.
  revert z. induction rs as [|r rest IH]; simpl; intros z H Hne.
  - injection H; intros <-. destruct Hne as [Hne|Hne]; [exact Hne|contradiction].
  - destruct (decode_payload (default "" (imageData r))); [|discriminate].
    apply (IH _ H). left. apply zip_file_not_nil.
Qed.

Lemma fold_zip_length ops :
  length (fold_left zip_step ops []) = length (remove_dups (map fst ops)).
Proof.
  destruct (fold_zip_spec ops) as (Hnd & Hnames & _).
  rewrite <- (length_map fst (fold_left zip_step ops [])).
  apply Permutation_length, NoDup_Permutation.
  - apply NoDup_ListNoDup. exact Hnd.
  - apply NoDup_remove_dups.
  - intros x. rewrite elem_of_remove_dups, !list_elem_of_In. apply Hnames.
Qed.

(** Claim C5: [createAndDownloadZip] rejects with ["No successful facecasts
    to zip"] when no result has a (truthy) [imageData], so an all-failure
    input is refused; whenever it resolves, the archive has at least one
    entry and is downloaded under the given name; and when the successes
    are exactly two results whose payloads decode and whose filenames
    differ, whatever failures surround them, the archive holds exactly
    those two entries, named from their labels, in input order. *)
Theorem createAndDownloadZip_successes :
  (forall results filename, successful results = [] ->
     createAndDownloadZip results filename = Rejected empty_zip_msg) /\
  (forall results filename filename' z,
     createAndDownloadZip results filename = Resolved (filename', z) ->
     filename' = filename /\ z <> []) /\
  (forall results filename r1 r2 b1 b2,
     successful results = [r1; r2] ->
     decode_payload (default "" (imageData r1)) = Some b1 ->
     decode_payload (default "" (imageData r2)) = Some b2 ->
     imageFilename (expression r1) <> imageFilename (expression r2) ->
     createAndDownloadZip results filename =
       Resolved (filename, [(imageFilename (expression r1), b1);
                            (imageFilename (expression r2), b2)])).
Proof.
  split; [|split].
  - intros results filename H. unfold createAndDownloadZip. rewrite H. reflexivity.
  - intros results filename filename' z. unfold createAndDownloadZip.
    destruct (successful results) as [|r rest]; [discriminate|].
    destruct (add_results [] (r :: rest)) as [z'|m] eqn:Ha; [|discriminate].
    intros H. injection H; intros <- <-. split; [reflexivity|].
    apply (add_results_not_nil _ _ _ Ha). right. discriminate.
  - intros results filename r1 r2 b1 b2 Hs H1 H2 Hne.
    unfold createAndDownloadZip. rewrite Hs. cbn [add_results]. rewrite H1, H2. cbn [zip_file].
    destruct (String.eqb_spec (imageFilename (expression r1)) (imageFilename (expression r2)))
      as [Heq|_]; [contradiction|reflexivity].
Qed.

(** Claim C9: when every success's payload decodes, the archive has one
    entry per distinct filename among the successes (no duplicates), the
    entry under a filename holds the payload of the last success with that
    filename in input order, and the number of entries is the number of
    distinct filenames; in particular two successes whose labels normalise
    alike leave a single entry with the later payload, so the archive can
    have fewer entries than there are successes. *)
Theorem createAndDownloadZip_collisions :
  (forall results filename ops,
     Forall2 (fun r p => imageFilename (expression r) = fst p /\
                         decode_payload (default "" (imageData r)) = Some (snd p))
             (successful results) ops ->
     successful results <> [] ->
     exists z, createAndDownloadZip results filename = Resolved (filename, z) /\
       List.NoDup (map fst z) /\
       (forall x, In x (map fst z) <-> In x (map fst ops)) /\
       (forall x v, In (x, v) z <-> last_payload x ops = Some v) /\
       length z = length (remove_dups (map fst ops))) /\
  (forall results filename r1 r2 b1 b2,
     successful results = [r1; r2] ->
     decode_payload (default "" (imageData r1)) = Some b1 ->
     decode_payload (default "" (imageData r2)) = Some b2 ->
     imageFilename (expression r1) = imageFilename (expression r2) ->
     createAndDownloadZip results filename =
       Resolved (filename, [(imageFilename (expression r1), b2)])) /\
  (exists results z,
     createAndDownloadZip results default_zip_name = Resolved (default_zip_name, z) /\
     length z < length (successful results)).
Proof.
  split; [|split].
  - intros results filename ops Hops Hne.
    exists (fold_left zip_step ops []).
    destruct (fold_zip_spec ops) as (Hnd & Hnames & Hin).
    split; [|split; [exact Hnd|split; [exact Hnames|split; [exact Hin|apply fold_zip_length]]]].
    unfold createAndDownloadZip.
    destruct (successful results) as [|r rest] eqn:Hs; [contradiction|].
    rewrite (add_results_fold [] _ ops Hops). reflexivity.
  - intros results filename r1 r2 b1 b2 Hs H1 H2 Heq.
    unfold createAndDownloadZip. rewrite Hs. cbn [add_results]. rewrite H1, H2. cbn [zip_file].
    rewrite Heq, String.eqb_refl. reflexivity.
  - exists [ {| expression := "Happy!"; imageData := Some "data:image/png;base64,AAAA";
                error := None |};
             {| expression := "Sad"; imageData := None; error := Some "failed" |};
             {| expression := "happy"; imageData := Some "data:image/png;base64,AQID";
                error := None |} ].
    eexists. split; [vm_compute; reflexivity|]. vm_compute. lia.
Qed.

(* ------------------------------------------------------------------ *)
(** ** The API-key store *)

Lemma notify_count l h ls :
  length (List.filter (fun x : nat * bool => fst x =? l) (map (fun l' => (l', h)) ls)) =
  count_occ Nat.eq_dec ls l.
Proof.
  induction ls as [|x ls IH]; [reflexivity|]. simpl.
  destruct (Nat.eq_dec x l) as [->|Hne].
  - rewrite Nat.eqb_refl. simpl. rewrite IH. reflexivity.
  - apply Nat.eqb_neq in Hne. rewrite Hne. exact IH.
Qed.

Lemma api_run_silent l s ops b :
  ~ In l (apiKeyListeners s) -> ~ In (AddListener l) ops ->
  ~ In (l, b) (snd (api_run s ops)).
Proof.
  revert s. induction ops as [|o rest IH]; intros s Hs Hops; simpl; [tauto|].
  assert (Hrest : ~ In (AddListener l) rest) by (intros H; apply Hops; right; exact H).
  destruct o as [l'|l'|key]; simpl.
  - assert (Hne : l' <> l) by (intros ->; apply Hops; left; reflexivity).
    destruct (api_run _ rest) as [s2 c2] eqn:Hr. simpl. intros [H|H].
    + injection H; intros; subst; contradiction.
    + refine (IH _ _ Hrest _). 2: rewrite Hr; exact H.
      simpl. rewrite in_app_iff. simpl. intuition congruence.
  - destruct (api_run _ rest) as [s2 c2] eqn:Hr. simpl. intros H.
    refine (IH _ _ Hrest _). 2: rewrite Hr; exact H.
    simpl. rewrite filter_In. intros [H1 _]. exact (Hs H1).
  - destruct (api_run _ rest) as [s2 c2] eqn:Hr. simpl. rewrite in_app_iff. intros [H|H].
    + unfold notifyApiKeyListeners in H. simpl in H.
      apply in_map_iff in H as (x & Hx & Hin). injection Hx; intros; subst. exact (Hs Hin).
    + refine (IH _ _ Hrest _). 2: rewrite Hr; exact H. exact Hs.
Qed.

(** Counterexample to claim C7: a listener added twice (nothing prevents
    it) is called twice by one [setApiKey]. *)
Lemma credential_store_duplicate_listener :
  let s := fst (api_run (new_service None None) [AddListener 1; AddListener 1]) in
  In 1 (apiKeyListeners s) /\ snd (setApiKey "k" s) = [(1, true); (1, true)].
Proof. vm_compute. split; [left; reflexivity|reflexivity]. Qed.

(** Claim C7 (amended): [addApiKeyListener(l)] registers [l] once more and
    calls it exactly once, at once, with the current presence of a key;
    [setApiKey(key)] stores and persists [key] and calls each listener as
    many times as it is registered (once for a listener registered once),
    all with the new presence ([key] non-empty); after the handle of [l]
    is called, which removes every registration of [l], [l] is not called
    again unless it is added again. *)
Theorem credential_store_notifications :
  (forall s l,
     snd (addApiKeyListener l s) = [(l, hasApiKey s)] /\
     apiKeyListeners (fst (addApiKeyListener l s)) = (apiKeyListeners s ++ [l])%list) /\
  (forall s key l,
     hasApiKey (fst (setApiKey key s)) = negb (String.eqb key "") /\
     stored (fst (setApiKey key s)) = Some key /\
     Forall (fun x : nat * bool => snd x = negb (String.eqb key "")) (snd (setApiKey key s)) /\
     length (List.filter (fun x : nat * bool => fst x =? l) (snd (setApiKey key s))) =
       count_occ Nat.eq_dec (apiKeyListeners s) l) /\
  (forall s l ops b, ~ In (AddListener l) ops ->
     ~ In (l, b) (snd (api_run (fst (removeApiKeyListener l s)) ops))).
Proof.
  split; [|split].
  - intros s l. split; reflexivity.
  - intros s key l. split; [reflexivity|split; [reflexivity|split]].
    + apply Forall_forall. intros x Hx. simpl in Hx. unfold notifyApiKeyListeners in Hx.
      simpl in Hx. apply list_elem_of_In, in_map_iff in Hx as (l' & <- & _). reflexivity.
    + apply notify_count.
  - intros s l ops b Hops. apply api_run_silent; [|exact Hops].
    simpl. rewrite filter_In. intros [_ H]. rewrite Nat.eqb_refl in H. discriminate.
Qed.

(* ------------------------------------------------------------------ *)
(** ** The launch fallback *)

Lemma list_ascii_of_string_app s1 s2 :
  list_ascii_of_string (s1 ++ s2)%string = list_ascii_of_string s1 ++ list_ascii_of_string s2.
Proof. induction s1 as [|c s1 IH]; simpl; [reflexivity|]. rewrite IH. reflexivity. Qed.

Lemma trim_start_app a b :
  trim_start (a ++ b) = if forallb is_js_space a then trim_start b else trim_start a ++ b.
Proof.
  induction a as [|c a IH]; [reflexivity|]. simpl.
  destruct (is_js_space c); simpl; [exact IH|reflexivity].
Qed.

Lemma fallback_template_split zipPath :
  fallback_template zipPath =
  (nl ++ fallback_head ++ (" " ++ zipPath ++ nl ++ "      "))%string.
Proof. reflexivity. Qed.

Lemma trim_start_all_space l : forallb is_js_space l = true -> trim_start l = [].
Proof.
  induction l as [|c l IH]; simpl; [reflexivity|].
  destruct (is_js_space c); simpl; [exact IH|discriminate].
Qed.

Lemma string_of_list_ascii_app a l :
  string_of_list_ascii (list_ascii_of_string a ++ l) = (a ++ string_of_list_ascii l)%string.
Proof. induction a as [|c a IH]; simpl; [reflexivity|]. rewrite IH. reflexivity. Qed.

Lemma js_trim_fallback zipPath :
  js_trim (fallback_template zipPath) =
  (fallback_head ++ string_of_list_ascii
     (rev (trim_start (rev (list_ascii_of_string (" " ++ zipPath ++ nl ++ "      ")%string)))))%string.
Proof.
  rewrite fallback_template_split. unfold js_trim.
  rewrite (list_ascii_of_string_app nl), (list_ascii_of_string_app fallback_head).
  set (T := list_ascii_of_string (" " ++ zipPath ++ nl ++ "      ")%string).
  set (H := list_ascii_of_string fallback_head).
  change (list_ascii_of_string nl) with [ascii_of_nat 10].
  cbn [app trim_start]. change (is_js_space (ascii_of_nat 10)) with true. cbv iota.
  rewrite (trim_start_app H T).
  change (forallb is_js_space H) with false. cbv iota.
  change (trim_start H) with H.
  rewrite rev_app_distr, trim_start_app.
  assert (HrH : trim_start (rev H) = rev H) by reflexivity.
  destruct (forallb is_js_space (rev T)) eqn:Hws.
  - rewrite HrH, rev_involutive, (trim_start_all_space _ Hws).
    rewrite <- (app_nil_r H) at 1. apply string_of_list_ascii_app.
  - rewrite rev_app_distr, rev_involutive. apply string_of_list_ascii_app.
Qed.

Lemma trim_start_rev_last l r :
  is_js_space (List.last l " "%char) = false -> trim_start (rev l ++ r) = rev l ++ r.
Proof.
  induction l as [|x l' _] using rev_ind; [intros H; discriminate H|].
  rewrite last_last, rev_app_distr. simpl. intros ->. reflexivity.
Qed.

Lemma fallback_message_exact zipPath :
  is_js_space (List.last (list_ascii_of_string zipPath) " "%char) = false ->
  js_trim (fallback_template zipPath) = (fallback_head ++ " " ++ zipPath)%string.
Proof.
  intros Hl. rewrite js_trim_fallback. f_equal.
  rewrite !list_ascii_of_string_app.
  change (list_ascii_of_string " ") with [" "%char].
  change (list_ascii_of_string nl ++ list_ascii_of_string "      ")
    with [ascii_of_nat 10; " "%char; " "%char; " "%char; " "%char; " "%char; " "%char].
  simpl. rewrite rev_app_distr. simpl.
  rewrite trim_start_rev_last by exact Hl.
  rewrite rev_app_distr, rev_involutive. simpl.
  rewrite string_of_list_ascii_of_string. reflexivity.
Qed.

Lemma launch_fallback_events encode navigate zipPath :
  (encode zipPath = None \/
   exists e err, encode zipPath = Some e /\ navigate (launch_prefix ++ e)%string = Some err) ->
  In (Alert (js_trim (fallback_template zipPath))) (snd (launchGlowficApp encode navigate zipPath)).
Proof.
  unfold launchGlowficApp. intros [He|(e & err & He & Hn)]; rewrite He.
  - simpl. right; left; reflexivity.
  - rewrite Hn. simpl. do 3 right. left. reflexivity.
Qed.

(** Claim C8: [launchGlowficApp] always resolves; when [encodeURIComponent]
    or the navigation to the custom URI throws, it alerts a message that
    starts with the fixed text naming Glowfic Gallery Manager, the script
    [./glowfic_scraper.py --gui] to run and the downloaded zip file to
    drag, followed by the path (exactly [" " ++ zipPath] when the path does
    not end in whitespace); when neither throws, it navigates to
    [glowficgirlichgallery://upload?file=<encoded path>] and alerts
    nothing. *)
Theorem launchGlowficApp_fallback encode navigate zipPath :
  fst (launchGlowficApp encode navigate zipPath) = Resolved tt /\
  ((encode zipPath = None \/
    exists e err, encode zipPath = Some e /\ navigate (launch_prefix ++ e)%string = Some err) ->
   exists msg, In (Alert msg) (snd (launchGlowficApp encode navigate zipPath)) /\
     (exists rest, msg = (fallback_head ++ rest)%string) /\
     (is_js_space (List.last (list_ascii_of_string zipPath) " "%char) = false ->
      msg = (fallback_head ++ " " ++ zipPath)%string)) /\
  (forall e, encode zipPath = Some e -> navigate (launch_prefix ++ e)%string = None ->
   In (Navigate (launch_prefix ++ e)%string) (snd (launchGlowficApp encode navigate zipPath)) /\
   forall msg, ~ In (Alert msg) (snd (launchGlowficApp encode navigate zipPath))).
Proof.
  split; [|split].
  - unfold launchGlowficApp. destruct (encode zipPath) as [e|]; [|reflexivity].
    destruct (navigate _); reflexivity.
  - intros Hfail. exists (js_trim (fallback_template zipPath)).
    split; [apply launch_fallback_events; exact Hfail|].
    split; [eexists; apply js_trim_fallback|].
    apply fallback_message_exact.
  - intros e He Hn. unfold launchGlowficApp. rewrite He, Hn. simpl.
    split; [right; left; reflexivity|].
    intros msg [H|[H|[]]]; discriminate.
Qed.

(* ------------------------------------------------------------------ *)
(** ** Counterexamples and instances *)

(** Counterexample to claim C2: with no API key the batch does not reject;
    it resolves with the missing-key message recorded in the item's result,
    and no request is sent. *)
Lemma generateFacecastBatch_no_key_resolves :
  generateFacecastBatch sample_net reversed_order None sample_image ["happy"] 1 None =
    Some (Resolved [{| expression := "happy"; imageData := None;
                       error := Some missing_key_msg |}], [Dispatch 0; Settle 0]) /\
  (forall m ev, generateFacecastBatch sample_net reversed_order None sample_image
                  ["happy"] 1 None <> Some (Rejected m, ev)).
Proof.
  split; [vm_compute; reflexivity|].
  intros m ev. vm_compute. discriminate.
Qed.

(** Counterexample to claim C3: a successful answer holding only text
    leaves a completed result with neither [imageData] nor [error]. *)
Lemma generateFacecastBatch_text_only :
  exists ev,
    generateFacecastBatch text_net reversed_order (Some "K") sample_image ["happy"] 1 None =
      Some (Resolved [{| expression := "happy"; imageData := None; error := None |}], ev).
Proof. eexists. vm_compute. reflexivity. Qed.

Lemma generateFacecastBatch_labels_witness :
  exists rs ev,
    generateFacecastBatch sample_net reversed_order (Some "K") sample_image sample_labels 2 None =
      Some (Resolved rs, ev) /\
    length rs = 3 /\
    exists r, rs !! 2 = Some r /\ expression r = "angry".
Proof.
  destruct (generateFacecastBatch_labels sample_net reversed_order (Some "K") sample_image
              sample_labels 2 None) as (rs & ev & Hg & Hlen & Hlab).
  - lia.
  - intros i l. unfold reversed_order. symmetry. apply Permutation_rev.
  - exists rs, ev. split; [exact Hg|]. split; [exact Hlen|].
    apply Hlab. reflexivity.
Defined.

Lemma generateFacecastBatch_missing_key_witness :
  exists ev,
    generateFacecastBatch sample_net reversed_order None sample_image sample_labels 2 None =
      Some (Resolved (map (fun e => {| expression := e; imageData := None;
                                       error := Some missing_key_msg |}) sample_labels), ev) /\
    forall d r, ~ In (Fetch d r) ev.
Proof.
  apply (generateFacecastBatch_missing_key sample_net reversed_order None sample_image
           sample_labels 2 None).
  - reflexivity.
  - lia.
  - intros i l. unfold reversed_order. symmetry. apply Permutation_rev.
Defined.

Lemma generateFacecastBatch_outcomes_witness :
  exists rs ev,
    generateFacecastBatch sample_net reversed_order (Some "K") sample_image sample_labels 2 None =
      Some (Resolved rs, ev) /\
    exists r, rs !! 1 = Some r /\ expression r = "sad" /\
      error r = Some "Failed to fetch" /\ imageData r = None.
Proof.
  destruct (generateFacecastBatch_outcomes sample_net reversed_order (Some "K") sample_image
              sample_labels 2 None) as (rs & ev & Hg & _ & Hout).
  - lia.
  - intros i l. unfold reversed_order. symmetry. apply Permutation_rev.
  - exists rs, ev. split; [exact Hg|].
    destruct (Hout 1 "sad" eq_refl) as (r & Hr & He & Hm).
    exists r. split; [exact Hr|]. split; [exact He|]. exact Hm.
Defined.

Lemma generateFacecastBatch_chunking_witness :
  exists cs rs ev,
    batch_chunks sample_net reversed_order (Some "K") sample_image sample_labels 2 None
      (length sample_labels) = Some cs /\
    generateFacecastBatch sample_net reversed_order (Some "K") sample_image sample_labels 2 None =
      Some (Resolved rs, ev) /\
    length cs = 2 /\ length (filter is_pause ev) = 1.
Proof.
  destruct (generateFacecastBatch_chunking sample_net reversed_order (Some "K") sample_image
              sample_labels 2 None) as (cs & rs & ev & Hb & Hg & _ & Hlen & _ & _ & Hp & _ & _).
  - lia.
  - intros i l. unfold reversed_order. symmetry. apply Permutation_rev.
  - exists cs, rs, ev. split; [exact Hb|]. split; [exact Hg|]. split.
    + rewrite Hlen. reflexivity.
    + rewrite Hp. reflexivity.
Defined.

Lemma generateFacecastBatch_loop_termination_witness :
  (exists cs, batch_chunks sample_net reversed_order (Some "K") sample_image sample_labels 2 None
                (length sample_labels) = Some cs) /\
  generateFacecastBatch sample_net reversed_order (Some "K") sample_image sample_labels 0 None = None.
Proof.
  split.
  - destruct (generateFacecastBatch_loop_termination sample_net reversed_order (Some "K")
                sample_image sample_labels 2 None) as [H _].
    destruct H as [H _]; [lia|]. exact H.
  - destruct (generateFacecastBatch_loop_termination sample_net reversed_order (Some "K")
                sample_image sample_labels 0 None) as [_ H].
    destruct H as [_ H]; [reflexivity|discriminate|]. exact H.
Defined.

Lemma createAndDownloadZip_successes_witness :
  createAndDownloadZip [] default_zip_name = Rejected empty_zip_msg /\
  createAndDownloadZip sample_results default_zip_name =
    Resolved (default_zip_name, [("facecast-happy.png", [0; 0; 0]);
                                 ("facecast-surprised-happy.png", [1; 2; 3])]).
Proof.
  destruct createAndDownloadZip_successes as (H1 & _ & H3). split.
  - apply H1. reflexivity.
  - apply (H3 sample_results default_zip_name
             {| expression := "Happy"; imageData := Some "data:image/png;base64,AAAA";
                error := None |}
             {| expression := "Surprised & Happy!";
                imageData := Some "data:image/png;base64,AQID"; error := None |}).
    + reflexivity.
    + vm_compute. reflexivity.
    + vm_compute. reflexivity.
    + vm_compute. discriminate.
Defined.

Lemma createAndDownloadZip_collisions_witness :
  exists z,
    createAndDownloadZip sample_collision default_zip_name = Resolved (default_zip_name, z) /\
    (forall v, In ("facecast-happy.png", v) z <-> v = [1; 2; 3]) /\
    length z = 1.
Proof.
  destruct createAndDownloadZip_collisions as (H1 & _ & _).
  destruct (H1 sample_collision default_zip_name
              [("facecast-happy.png", [0; 0; 0]); ("facecast-happy.png", [1; 2; 3])])
    as (z & Hz & _ & _ & Hin & Hlen).
  - constructor; [split; vm_compute; reflexivity|].
    constructor; [split; vm_compute; reflexivity|]. constructor.
  - vm_compute. discriminate.
  - exists z. split; [exact Hz|]. split.
    + intros v. rewrite Hin. vm_compute. split; [intros H; injection H; auto|intros ->; reflexivity].
    + rewrite Hlen. vm_compute. reflexivity.
Defined.

Lemma credential_store_notifications_witness :
  let s := fst (api_run (new_service None None) [AddListener 1; AddListener 2]) in
  snd (setApiKey "k" s) = [(1, true); (2, true)] /\
  ~ In (1, true) (snd (api_run (fst (removeApiKeyListener 1 s))
                           [SetApiKey "k"; AddListener 3; SetApiKey ""])) /\
  ~ In (1, false) (snd (api_run (fst (removeApiKeyListener 1 s))
                            [SetApiKey "k"; AddListener 3; SetApiKey ""])).
Proof.
  intros s. destruct credential_store_notifications as (_ & _ & H3).
  split; [vm_compute; reflexivity|]. split.
  - apply H3. simpl. intros [H|[H|[H|[]]]]; discriminate.
  - apply H3. simpl. intros [H|[H|[H|[]]]]; discriminate.
Defined.

Lemma launchGlowficApp_fallback_witness :
  exists msg,
    In (Alert msg) (snd (launchGlowficApp encodeURIComponent (fun _ => Some "SecurityError")
                           sample_zip_path)) /\
    msg = (fallback_head ++ " " ++ sample_zip_path)%string.
Proof.
  destruct (launchGlowficApp_fallback encodeURIComponent (fun _ => Some "SecurityError")
              sample_zip_path) as (_ & H2 & _).
  destruct H2 as (msg & Hin & _ & Hexact).
  - right. eexists _, _. split; reflexivity.
  - exists msg. split; [exact Hin|]. apply Hexact. vm_compute. reflexivity.
Defined.

(* ================================================================== *)
(** * Further properties of the code *)

(* ------------------------------------------------------------------ *)
(** ** The requests a batch sends *)

Lemma generateFacecast_requests fetch apiKey ref e custom :
  (generateFacecast fetch apiKey ref e custom).2 =
  match apiKey with
  | Some key => if truthy apiKey then [build_request key ref e custom] else []
  | None => []
  end.
Proof.
  unfold generateFacecast. destruct apiKey as [key|]; [|reflexivity].
  destruct (truthy (Some key)); reflexivity.
Qed.

Lemma filter_concat_events (P : event -> bool) (L : list (list event)) :
  filter P (concat L) = concat (map (filter P) L).
Proof.
  induction L as [|l L IH]; [reflexivity|]. simpl. rewrite filter_app, IH. reflexivity.
Qed.

Lemma filter_fetch_none (l : list event) :
  (forall e, In e l -> is_fetch e = false) -> filter is_fetch l = [].
Proof.
  induction l as [|e l IH]; intros H; [reflexivity|].
  assert (He := H e (or_introl eq_refl)).
  assert (Hl : filter is_fetch l = []) by (apply IH; intros x Hx; apply H; right; exact Hx).
  destruct e; simpl in *; try discriminate; exact Hl.
Qed.

Lemma filter_fetch_map d (reqs : list request) :
  filter is_fetch (map (Fetch d) reqs) = map (Fetch d) reqs.
Proof. induction reqs as [|r reqs IH]; [reflexivity|]. cbn [map]. rewrite filter_cons, IH. reflexivity. Qed.

Section BatchRequests.
Variables (net : nat -> request -> fetch_outcome) (sched : nat -> list nat -> list nat)
          (apiKey : option string) (ref : string) (exprs : list string)
          (k : nat) (custom : option string).
Hypothesis Hk : 1 <= k.
Hypothesis Hsched : forall i l, sched i l ≡ₚ l.

Local Abbreviation n := (length exprs).
Local Abbreviation body := (chunk_body net sched apiKey ref exprs k custom).
Local Abbreviation call := (item_call net apiKey ref exprs custom).
Local Abbreviation R j := ((generateFacecast (net j) apiKey ref (nth j exprs "") custom).2).

Lemma fetch_filter_call i j :
  filter is_fetch (snd (call i j)) = map (Fetch (i + j)) (R (i + j)).
Proof.
  unfold item_call. destruct (generateFacecast _ _ _ _ _) as [s reqs]. simpl.
  apply filter_fetch_map.
Qed.

Lemma fetch_filter_chunk i :
  filter is_fetch (co_events (body i)) =
  concat (map (fun j => map (Fetch j) (R j)) (seq i (Nat.min k (n - i)))).
Proof.
  unfold chunk_body. cbn [co_events]. rewrite !filter_app.
  rewrite (filter_fetch_none (map (fun j => Settle (i + j)) _)).
  2: { intros e He. apply in_map_iff in He as (j & <- & _). reflexivity. }
  rewrite (filter_fetch_none (if i + k <? n then [Pause 1000] else [])).
  2: { intros e He. destruct (i + k <? n); [destruct He as [<-|[]]; reflexivity|destruct He]. }
  rewrite !app_nil_r, filter_concat_events, !map_map.
  rewrite <- (map_add_seq i), map_map. f_equal. apply map_ext. intros j.
  apply fetch_filter_call.
Qed.

Lemma fetch_trace fuel i cs :
  js_for fuel k n i body = Some cs ->
  filter is_fetch (concat (map co_events cs)) =
  concat (map (fun j => map (Fetch j) (R j)) (seq i (n - i))).
Proof.
  revert i cs. induction fuel as [|f IH]; intros i cs Hjs;
    apply js_for_inv in Hjs as [[Hi ->]|(Hi & f' & cs' & Hf & Hjs & ->)].
  - replace (n - i) with 0 by lia. reflexivity.
  - discriminate.
  - replace (n - i) with 0 by lia. reflexivity.
  - injection Hf as <-. cbn [map concat]. rewrite filter_app, fetch_filter_chunk, (IH _ _ Hjs).
    rewrite <- concat_app, <- map_app, seq_chunk by lia. reflexivity.
Qed.

End BatchRequests.

(** With a non-empty API key, a batch sends exactly one request per
    expression, in submission order, each built from the key, the
    reference image, that expression and the prompt template (no retry, no
    duplicate); with no key it sends none. *)
Theorem generateFacecastBatch_requests net sched apiKey ref exprs k custom :
  1 <= k -> (forall i l, sched i l ≡ₚ l) ->
  exists rs ev,
    generateFacecastBatch net sched apiKey ref exprs k custom = Some (Resolved rs, ev) /\
    filter is_fetch ev =
      match apiKey with
      | Some key =>
          if truthy apiKey
          then map (fun j => Fetch j (build_request key ref (nth j exprs "") custom))
                   (seq 0 (length exprs))
          else []
      | None => []
      end.
Proof.
  intros Hk Hsched.
  destruct (batch_run_spec net sched apiKey ref exprs k custom Hk Hsched) as (cs & Hb & _ & Hg).
  eexists _, _. split; [exact Hg|].
  unfold batch_chunks in Hb.
  rewrite (fetch_trace net sched apiKey ref exprs k custom Hk _ _ _ Hb), Nat.sub_0_r.
  setoid_rewrite generateFacecast_requests. clear Hg Hb.
  destruct apiKey as [key|]; [destruct (truthy (Some key))|].
  all: induction (seq 0 (length exprs)) as [|j l IH]; [reflexivity|];
    simpl in IH |- *; rewrite IH; reflexivity.
Qed.

(* ------------------------------------------------------------------ *)
(** ** Reading the response *)

Lemma fold_read_part_image (ps : list part) (g : GeminiResponse) :
  Forall (fun q => inlineData q = None) ps ->
  imageData_of (fold_left read_part ps g) = imageData_of g.
Proof.
  revert g. induction ps as [|q ps IH]; intros g Hps; [reflexivity|].
  inversion Hps as [|? ? Hq Hps']; subst. simpl. rewrite IH by exact Hps'.
  unfold read_part. rewrite Hq. destruct (truthy (text q)); reflexivity.
Qed.

Lemma fold_read_part_text (ps : list part) (g : GeminiResponse) :
  Forall (fun q => inlineData q <> None \/ truthy (text q) = false) ps ->
  textResponse_of (fold_left read_part ps g) = textResponse_of g.
Proof.
  revert g. induction ps as [|q ps IH]; intros g Hps; [reflexivity|].
  inversion Hps as [|? ? Hq Hps']; subst. simpl. rewrite IH by exact Hps'.
  unfold read_part. destruct (inlineData q) as [[m d]|]; [reflexivity|].
  destruct Hq as [Hq|Hq]; [congruence|]. rewrite Hq. reflexivity.
Qed.

Lemma truthy_key key : key <> "" -> truthy (Some key) = true.
Proof. intros H. simpl. destruct (String.eqb_spec key ""); [congruence|reflexivity]. Qed.

(** When the request succeeds and the first candidate has image parts, the
    facecast resolves with the last image part of that candidate, as a
    [data:] URL built from its mime type and data; image parts of later
    candidates are never read. *)
Theorem generateFacecast_last_image fetch key ref e custom status body b c cs pre p post m d :
  key <> "" ->
  fetch (build_request key ref e custom) = HttpResponse true status body (inr b) ->
  candidates b = Some (c :: cs) ->
  content_parts c = Some (pre ++ p :: post) ->
  inlineData p = Some (m, d) ->
  Forall (fun q => inlineData q = None) post ->
  exists g,
    generateFacecast fetch (Some key) ref e custom =
      (Resolved g, [build_request key ref e custom]) /\
    imageData_of g = Some ("data:" ++ m ++ ";base64," ++ d)%string.
Proof.
  intros Hkey Hf Hc Hp Hm Hpost.
  assert (Himg : imageData_of (read_body b) = Some ("data:" ++ m ++ ";base64," ++ d)%string).
  { unfold read_body. rewrite Hc, Hp, fold_left_app. cbn [fold_left].
    rewrite fold_read_part_image by exact Hpost. unfold read_part. rewrite Hm. reflexivity. }
  exists (read_body b). unfold generateFacecast. rewrite truthy_key by exact Hkey.
  rewrite Hf. cbn [negb]. rewrite Himg. split; reflexivity.
Qed.

(** The text of the response is the last non-empty [text] among the parts
    of the first candidate that carry no [inlineData]; later text parts that
    are empty, and image parts, do not replace it. *)
Theorem read_body_last_text b c cs pre p post t :
  candidates b = Some (c :: cs) ->
  content_parts c = Some (pre ++ p :: post) ->
  inlineData p = None -> text p = Some t -> t <> "" ->
  Forall (fun q => inlineData q <> None \/ truthy (text q) = false) post ->
  textResponse_of (read_body b) = Some t.
Proof.
  intros Hc Hp Hi Ht Hne Hpost.
  unfold read_body. rewrite Hc, Hp, fold_left_app. cbn [fold_left].
  rewrite fold_read_part_text by exact Hpost. unfold read_part. rewrite Hi, Ht.
  rewrite truthy_key by exact Hne. reflexivity.
Qed.

Lemma read_part_some_content (g : GeminiResponse) (q : part) :
  truthy (imageData_of g) || truthy (textResponse_of g) = true ->
  truthy (imageData_of (read_part g q)) || truthy (textResponse_of (read_part g q)) = true.
Proof.
  intros H. unfold read_part. destruct (inlineData q) as [[m d]|]; [reflexivity|].
  destruct (truthy (text q)) eqn:Ht; [simpl; rewrite Ht; apply orb_true_r|exact H].
Qed.

Lemma fold_read_part_some_content (ps : list part) (g : GeminiResponse) :
  truthy (imageData_of g) || truthy (textResponse_of g) = true ->
  truthy (imageData_of (fold_left read_part ps g)) ||
  truthy (textResponse_of (fold_left read_part ps g)) = true.
Proof.
  revert g. induction ps as [|q ps IH]; intros g H; [exact H|].
  simpl. apply IH. apply read_part_some_content. exact H.
Qed.

Lemma fold_read_part_empty (ps : list part) (g : GeminiResponse) :
  truthy (imageData_of g) || truthy (textResponse_of g) = false ->
  (truthy (imageData_of (fold_left read_part ps g)) ||
   truthy (textResponse_of (fold_left read_part ps g)) = false <->
   Forall (fun q => inlineData q = None /\ truthy (text q) = false) ps).
Proof.
  revert g. induction ps as [|q ps IH]; intros g H.
  - simpl. split; [constructor|intros _; exact H].
  - simpl. rewrite Forall_cons.
    destruct (inlineData q) as [[m d]|] eqn:Hi.
    + rewrite fold_read_part_some_content.
      2: { unfold read_part. rewrite Hi. reflexivity. }
      split; [discriminate|intros [[Hq _] _]; discriminate].
    + destruct (truthy (text q)) eqn:Ht.
      * rewrite fold_read_part_some_content.
        2: { unfold read_part. rewrite Hi, Ht. simpl. rewrite Ht. apply orb_true_r. }
        split; [discriminate|intros [[_ Hq] _]; discriminate].
      * assert (Hg : read_part g q = g) by (unfold read_part; rewrite Hi, Ht; reflexivity).
        rewrite Hg, (IH g H). tauto.
Qed.

Lemma read_body_empty (b : json_body) :
  truthy (imageData_of (read_body b)) || truthy (textResponse_of (read_body b)) = false <->
  (forall c cs ps, candidates b = Some (c :: cs) -> content_parts c = Some ps ->
     Forall (fun q => inlineData q = None /\ truthy (text q) = false) ps).
Proof.
  unfold read_body. destruct (candidates b) as [[|c cs]|].
  2: destruct (content_parts c) as [ps|] eqn:Hp.
  - split; [intros _ c' cs' ps' H; discriminate|reflexivity].
  - rewrite (fold_read_part_empty ps) by reflexivity. split.
    + intros H c' cs' ps' Hc Hp'. injection Hc as <- _. rewrite Hp in Hp'.
      injection Hp' as <-. exact H.
    + intros H. apply (H c cs ps eq_refl Hp).
  - split; [|reflexivity]. intros _ c' cs' ps' Hc Hp'. injection Hc as <- _. congruence.
  - split; [intros _ c' cs' ps' H; discriminate|reflexivity].
Qed.

(** A successful response is rejected with "No content found in Gemini
    response" exactly when its first candidate gives nothing: there is no
    candidate, the first has no [content.parts], or none of its parts has
    an image or a non-empty text, whatever the later candidates hold. *)
Theorem generateFacecast_no_content fetch key ref e custom status body b :
  key <> "" ->
  fetch (build_request key ref e custom) = HttpResponse true status body (inr b) ->
  (generateFacecast fetch (Some key) ref e custom =
     (Rejected no_content_msg, [build_request key ref e custom]) <->
   (forall c cs ps, candidates b = Some (c :: cs) -> content_parts c = Some ps ->
      Forall (fun q => inlineData q = None /\ truthy (text q) = false) ps)).
Proof.
  intros Hkey Hf. rewrite <- read_body_empty.
  unfold generateFacecast. rewrite truthy_key by exact Hkey. rewrite Hf. cbn [negb].
  destruct (truthy (imageData_of (read_body b))), (truthy (textResponse_of (read_body b)));
    simpl; split; congruence.
Qed.

(* ------------------------------------------------------------------ *)
(** ** The key across a reload *)

Lemma api_run_fst_cons s o ops :
  fst (api_run s (o :: ops)) = fst (api_run (fst (api_step s o)) ops).
Proof.
  simpl. destruct (api_step s o) as [s1 c1]. simpl. destruct (api_run s1 ops). reflexivity.
Qed.

Lemma api_run_fst_app s ops1 ops2 :
  fst (api_run s (ops1 ++ ops2)) = fst (api_run (fst (api_run s ops1)) ops2).
Proof.
  revert s. induction ops1 as [|o ops1 IH]; intros s; [reflexivity|].
  rewrite <- app_comm_cons, !api_run_fst_cons. apply IH.
Qed.

Lemma api_run_key_frame s ops :
  Forall (fun o => forall key, o <> SetApiKey key) ops ->
  apiKey_st (fst (api_run s ops)) = apiKey_st s /\ stored (fst (api_run s ops)) = stored s.
Proof.
  revert s. induction ops as [|o ops IH]; intros s Hops; [split; reflexivity|].
  inversion Hops as [|? ? Ho Hops']; subst. rewrite api_run_fst_cons.
  destruct (IH (fst (api_step s o)) Hops') as [-> ->].
  destruct o as [l|l|key]; [split; reflexivity|split; reflexivity|].
  exfalso. exact (Ho key eq_refl).
Qed.

(** After any sequence of listener changes and key updates, the key in use
    and the one in local storage are the last key set; a service created
    afterwards (a page reload) has a key exactly when the Vite variable is
    set or that last key is non-empty, and with no Vite variable it uses
    that last key. *)
Theorem api_run_reload env s pre k post :
  Forall (fun o => forall key, o <> SetApiKey key) post ->
  let s' := fst (api_run s (pre ++ SetApiKey k :: post)) in
  apiKey_st s' = Some k /\ stored s' = Some k /\
  hasApiKey (new_service env (stored s')) = truthy env || negb (String.eqb k "") /\
  (truthy env = false -> k <> "" -> apiKey_st (new_service env (stored s')) = Some k).
Proof.
  intros Hpost s'.
  assert (Hs : apiKey_st s' = Some k /\ stored s' = Some k).
  { subst s'. rewrite api_run_fst_app, api_run_fst_cons.
    destruct (api_run_key_frame (fst (api_step (fst (api_run s pre)) (SetApiKey k))) post Hpost)
      as [-> ->].
    split; reflexivity. }
  destruct Hs as [H1 H2]. rewrite H2. split; [exact H1|]. split; [reflexivity|].
  unfold hasApiKey, new_service, loadApiKey. cbn [apiKey_st]. split.
  - destruct (truthy env) eqn:He; [exact He|]. simpl.
    destruct (String.eqb k "") eqn:E; simpl; rewrite ?E; reflexivity.
  - intros He Hk. rewrite He, truthy_key by exact Hk. reflexivity.
Qed.

(* ------------------------------------------------------------------ *)
(** ** Base64 payloads *)

Ltac nat_divmod := zify; repeat progress (rewrite ?Nat2Z.inj_div, ?Nat2Z.inj_mod, ?Nat2Z.inj_add, ?Nat2Z.inj_mul in * ); simpl Z.of_nat in *; Z.div_mod_to_equations; lia.


Lemma b64_char_value v : v < 64 ->
  b64_value (b64_char v) = Some v /\ is_ascii_ws (b64_char v) = false /\
  is_eq_sign (b64_char v) = false /\ Ascii.eqb (b64_char v) "," = false.
Proof.
  intros Hv. do 64 (destruct v as [|v]; [split_and!; reflexivity|]). lia.
Qed.

Lemma b64_values_map vs : Forall (fun v => v < 64) vs -> b64_values (map b64_char vs) = Some vs.
Proof.
  induction vs as [|v vs IH]; intros H; [reflexivity|]. inversion H; subst. simpl.
  rewrite (proj1 (b64_char_value v ltac:(assumption))), IH by assumption. reflexivity.
Qed.

Lemma base64_encode_shape_aux n bs : length bs <= n -> Forall (fun b => b < 256) bs ->
  exists vs pad, base64_encode bs = map b64_char vs ++ pad /\ Forall (fun v => v < 64) vs /\
    b64_bytes vs = Some bs /\
    ((pad = [] /\ length vs mod 4 = 0) \/ (pad = ["="%char] /\ length vs mod 4 = 3) \/
     (pad = ["="%char; "="%char] /\ length vs mod 4 = 2)).
Proof.
  revert bs. induction n as [|n IH]; intros bs Hl Hb.
  - destruct bs; [|simpl in Hl; lia]. exists [], []. split_and!; auto.
  - destruct bs as [|a [|b [|c r]]].
    + exists [], []. split_and!; auto.
    + inversion Hb; subst. exists [a / 4; (a mod 4) * 16], ["="%char; "="%char].
      refine (conj _ (conj _ (conj _ _))); [reflexivity| repeat (constructor; [nat_divmod|]); constructor | | auto].
      cbn [b64_bytes]. f_equal. f_equal. nat_divmod.
    + inversion Hb as [|? ? Ha Hb']; subst. inversion Hb'; subst.
      exists [a / 4; (a mod 4) * 16 + b / 16; (b mod 16) * 4], ["="%char].
      refine (conj _ (conj _ (conj _ _))); [reflexivity| repeat (constructor; [nat_divmod|]); constructor | | auto].
      cbn [b64_bytes]. f_equal. f_equal; [|f_equal]; nat_divmod.
    + inversion Hb as [|? ? Ha Hb']; subst. inversion Hb' as [|? ? Hb1 Hb'']; subst.
      inversion Hb''; subst.
      destruct (IH r ltac:(simpl in Hl; lia) ltac:(assumption)) as (vs & pad & He & Hvs & Hbs & Hpad).
      exists ([a / 4; (a mod 4) * 16 + b / 16; (b mod 16) * 4 + c / 64; c mod 64] ++ vs), pad.
      refine (conj _ (conj _ (conj _ _))).
      * simpl. rewrite He. reflexivity.
      * apply Forall_app. split; [repeat (constructor; [nat_divmod|]); constructor|exact Hvs].
      * cbn [b64_bytes app]. rewrite Hbs. f_equal. f_equal; [|f_equal; [|f_equal]]; nat_divmod.
      * rewrite length_app. simpl length.
        assert (E : (4 + length vs) mod 4 = length vs mod 4).
        { replace (4 + length vs) with (length vs + 1 * 4) by lia. apply Nat.Div0.mod_add. }
        destruct Hpad as [[-> Hm]|[[-> Hm]|[-> Hm]]]; [left|right; left|right; right];
          (split; [reflexivity|]); rewrite E; exact Hm.
Qed.

Lemma filter_no_ws (l : list ascii) :
  Forall (fun c => is_ascii_ws c = false) l -> filter (fun c => negb (is_ascii_ws c)) l = l.
Proof.
  induction l as [|c l IH]; intros H; [reflexivity|]. inversion H as [|? ? Hc Hl]; subst.
  rewrite filter_cons, IH by exact Hl. rewrite Hc. reflexivity.
Qed.

Lemma in_b64_chars c vs : Forall (fun v => v < 64) vs -> In c (map b64_char vs) ->
  is_ascii_ws c = false /\ is_eq_sign c = false /\ Ascii.eqb c "," = false.
Proof.
  intros Hvs Hc. apply in_map_iff in Hc as (v & <- & Hv).
  rewrite Forall_forall in Hvs. apply list_elem_of_In in Hv.
  destruct (b64_char_value v (Hvs v Hv)) as (_ & ? & ? & ?). auto.
Qed.

Lemma strip_padding_b64 vs pad :
  Forall (fun v => v < 64) vs ->
  ((pad = [] /\ length vs mod 4 = 0) \/ (pad = ["="%char] /\ length vs mod 4 = 3) \/
   (pad = ["="%char; "="%char] /\ length vs mod 4 = 2)) ->
  strip_padding (map b64_char vs ++ pad) = map b64_char vs.
Proof.
  intros Hvs Hpad. unfold strip_padding. rewrite length_app, length_map.
  assert (Hlast : forall c r, rev (map b64_char vs) = c :: r -> is_eq_sign c = false).
  { intros c r Hr. assert (Hc : In c (rev (map b64_char vs))) by (rewrite Hr; left; reflexivity).
    apply in_rev in Hc. apply (in_b64_chars c vs Hvs Hc). }
  destruct Hpad as [[-> Hm]|[[-> Hm]|[-> Hm]]].
  - rewrite Nat.add_0_r, Hm, app_nil_r. simpl.
    destruct (rev (map b64_char vs)) as [|c1 [|c2 r]] eqn:R; [reflexivity| |].
    + rewrite (Hlast c1 [] ltac:(first [exact R|reflexivity])). reflexivity.
    + rewrite (Hlast c1 _ ltac:(first [exact R|reflexivity])). reflexivity.
  - assert (E : (length vs + length ["="%char]) mod 4 = 0).
    { simpl length. rewrite Nat.Div0.add_mod, Hm. reflexivity. }
    rewrite E. simpl Nat.eqb. cbv iota. rewrite rev_unit.
    assert (Hl : 3 <= length (rev (map b64_char vs))).
    { rewrite length_rev, length_map. destruct (length vs) as [|[|[|]]]; simpl in Hm; lia. }
    destruct (rev (map b64_char vs)) as [|c2 r] eqn:R; [simpl in Hl; lia|].
    rewrite (Hlast c2 r ltac:(first [exact R|reflexivity])). 
    assert (Hr : rev (c2 :: r) = map b64_char vs) by (rewrite <- R; apply rev_involutive).
    simpl in Hr |- *. exact Hr.
  - assert (E : (length vs + length ["="%char; "="%char]) mod 4 = 0).
    { simpl length. rewrite Nat.Div0.add_mod, Hm. reflexivity. }
    rewrite E. simpl Nat.eqb. cbv iota.
    replace (rev (map b64_char vs ++ ["="%char; "="%char]))
      with ("="%char :: "="%char :: rev (map b64_char vs)).
    2: { rewrite rev_app_distr. reflexivity. }
    simpl. apply rev_involutive.
Qed.

Lemma atob_base64_encode bs :
  Forall (fun b => b < 256) bs -> atob (string_of_list_ascii (base64_encode bs)) = Some bs.
Proof.
  intros Hb.
  destruct (base64_encode_shape_aux (length bs) bs (le_n _) Hb) as (vs & pad & He & Hvs & Hbs & Hpad).
  unfold atob. rewrite list_ascii_of_string_of_list_ascii, He.
  rewrite filter_no_ws.
  2: { apply Forall_app. split.
       - apply Forall_forall. intros c Hc. apply list_elem_of_In in Hc.
         apply (in_b64_chars c vs Hvs Hc).
       - destruct Hpad as [[-> _]|[[-> _]|[-> _]]]; repeat constructor. }
  rewrite strip_padding_b64 by assumption. rewrite length_map.
  replace (length vs mod 4 =? 1) with false.
  2: { symmetry. apply Nat.eqb_neq. destruct Hpad as [[_ ->]|[[_ ->]|[_ ->]]]; discriminate. }
  rewrite b64_values_map by exact Hvs. exact Hbs.
Qed.

Lemma js_split_char_none sep (l : list ascii) :
  forallb (fun c => negb (Ascii.eqb c sep)) l = true ->
  js_split_char sep (string_of_list_ascii l) = [string_of_list_ascii l].
Proof.
  induction l as [|c l IH]; intros H; [reflexivity|]. simpl in H |- *.
  apply andb_prop in H as [Hc Hl]. rewrite IH by exact Hl.
  destruct (Ascii.eqb c sep); [discriminate|reflexivity].
Qed.

Lemma js_split_char_prefix sep p s q qs :
  forallb (fun c => negb (Ascii.eqb c sep)) (list_ascii_of_string p) = true ->
  js_split_char sep s = q :: qs ->
  js_split_char sep (p ++ s)%string = (p ++ q)%string :: qs.
Proof.
  intros Hp Hs. induction p as [|c p IH]; [exact Hs|]. simpl in Hp |- *.
  apply andb_prop in Hp as [Hc Hp]. rewrite IH by exact Hp.
  destruct (Ascii.eqb c sep); [discriminate|reflexivity].
Qed.

(** A data URL whose payload is the standard padded base64 encoding of a
    byte string, and whose mime type has no comma, decodes back to exactly
    those bytes: the zip holds the bytes the image data URL carries. *)
Theorem decode_payload_base64 mime bs :
  Forall (fun b => b < 256) bs ->
  forallb (fun c => negb (Ascii.eqb c ",")) (list_ascii_of_string mime) = true ->
  decode_payload ("data:" ++ mime ++ ";base64," ++ string_of_list_ascii (base64_encode bs))%string
    = Some bs.
Proof.
  intros Hb Hm. unfold decode_payload.
  assert (Hd : js_split_char "," (string_of_list_ascii (base64_encode bs)) =
               [string_of_list_ascii (base64_encode bs)]).
  { apply js_split_char_none.
    destruct (base64_encode_shape_aux (length bs) bs (le_n _) Hb) as (vs & pad & -> & Hvs & _ & Hpad).
    rewrite forallb_app. apply andb_true_intro. split.
    - apply forallb_forall. intros c Hc. destruct (in_b64_chars c vs Hvs Hc) as (_ & _ & ->). reflexivity.
    - destruct Hpad as [[-> _]|[[-> _]|[-> _]]]; reflexivity. }
  assert (H1 : js_split_char "," (";base64," ++ string_of_list_ascii (base64_encode bs))%string =
               [";base64"; string_of_list_ascii (base64_encode bs)]).
  { remember (string_of_list_ascii (base64_encode bs)) as d. simpl. change (String.append "" d) with d. rewrite Hd. reflexivity. }
  rewrite (js_split_char_prefix "," "data:" _ _ _ eq_refl
             (js_split_char_prefix _ mime _ _ _ Hm H1)).
  simpl. apply atob_base64_encode. exact Hb.
Qed.

Lemma hex_value_digit n : n < 16 -> hex_value (hex_digit n) = Some n.
Proof. intros Hn. do 16 (destruct n as [|n]; [reflexivity|]). lia. Qed.

Lemma unreserved_not_percent c : uri_unreserved c = true -> Ascii.eqb c "%" = false.
Proof.
  intros H. destruct (Ascii.eqb_spec c "%") as [->|]; [discriminate H|reflexivity].
Qed.

Lemma code_div16 c : code c / 16 < 16 /\ code c mod 16 < 16 /\ code c / 16 * 16 + code c mod 16 = code c.
Proof.
  pose proof (nat_ascii_bounded c). unfold code. split_and!; nat_divmod.
Qed.

Lemma uri_decode_encode l : uri_decode (encode_go l) = Some l.
Proof.
  induction l as [|c l IH]; [reflexivity|]. cbn [encode_go].
  destruct (uri_unreserved c) eqn:Hu.
  - cbn [uri_decode]. rewrite unreserved_not_percent by exact Hu. rewrite IH. reflexivity.
  - destruct (code_div16 c) as (H1 & H2 & H3). cbn [uri_decode].
    rewrite Ascii.eqb_refl, !hex_value_digit, IH by assumption. cbv beta iota.
    rewrite H3. unfold code.
    rewrite ascii_nat_embedding. reflexivity.
Qed.

Lemma encode_go_chars l c :
  In c (encode_go l) ->
  uri_unreserved c = true \/ c = "%"%char \/ exists n, n < 16 /\ c = hex_digit n.
Proof.
  induction l as [|d l IH]; [intros []|]. simpl.
  destruct (uri_unreserved d) eqn:Hu.
  - intros [<-|H]; [left; exact Hu|exact (IH H)].
  - destruct (code_div16 d) as (H1 & H2 & _).
    intros [<-|[<-|[<-|H]]]; [right; left; reflexivity|right; right; eauto|right; right; eauto|exact (IH H)].
Qed.

(** The app is launched with the zip path percent-encoded: the URL
    navigated to is the launch prefix followed by an encoding that decodes
    back to the path and holds only unreserved characters, [%] and hex
    digits, so no character of the path can end the [file] parameter. *)
Theorem launchGlowficApp_encoded_path navigate zipPath :
  exists e,
    In (Navigate (launch_prefix ++ e)%string)
       (snd (launchGlowficApp encodeURIComponent navigate zipPath)) /\
    uri_decode (list_ascii_of_string e) = Some (list_ascii_of_string zipPath) /\
    (forall c, In c (list_ascii_of_string e) ->
       uri_unreserved c = true \/ c = "%"%char \/ exists n, n < 16 /\ c = hex_digit n).
Proof.
  exists (string_of_list_ascii (encode_go (list_ascii_of_string zipPath))).
  rewrite list_ascii_of_string_of_list_ascii. split_and!.
  - unfold launchGlowficApp, encodeURIComponent.
    destruct (navigate _) as [err|]; simpl; right; left; reflexivity.
  - apply uri_decode_encode.
  - intros c. apply encode_go_chars.
Qed.

Lemma js_includes_In l x : js_includes l x = true <-> In x l.
Proof.
  unfold js_includes. rewrite existsb_exists. split.
  - intros (y & Hy & Hxy). apply String.eqb_eq in Hxy. subst. exact Hy.
  - intros Hx. exists x. split; [exact Hx|apply String.eqb_refl].
Qed.

Lemma js_includes_false l x : js_includes l x = false <-> ~ In x l.
Proof.
  rewrite <- js_includes_In. destruct (js_includes l x); split; congruence.
Qed.

Lemma category_lookup_In ae cat ce : category_lookup ae cat = Some ce -> In (cat, ce) ae.
Proof.
  unfold category_lookup. destruct (List.find _ ae) as [[k v]|] eqn:Hf; [|discriminate].
  intros H. injection H as <-. apply find_some in Hf as [Hin Hk].
  apply String.eqb_eq in Hk. simpl in Hk. subst. exact Hin.
Qed.

Lemma in_filter_neq (x e : string) l :
  In x (List.filter (fun y => negb (String.eqb y e)) l) <-> In x l /\ x <> e.
Proof.
  rewrite filter_In. split.
  - intros [Hx He]. split; [exact Hx|]. intros ->. rewrite String.eqb_refl in He. discriminate.
  - intros [Hx He]. split; [exact Hx|]. apply String.eqb_neq in He. rewrite He. reflexivity.
Qed.

(** Toggling an expression flips whether it is selected and leaves every
    other expression as it was; the list never gets a duplicate, and a
    second toggle of an unselected expression gives back the list. *)
Theorem handleExpressionToggle_flip e l :
  (In e (handleExpressionToggle e l) <-> ~ In e l) /\
  (forall x, x <> e -> (In x (handleExpressionToggle e l) <-> In x l)) /\
  (List.NoDup l -> List.NoDup (handleExpressionToggle e l)) /\
  (~ In e l -> handleExpressionToggle e (handleExpressionToggle e l) = l).
Proof.
  unfold handleExpressionToggle at 1 2 3.
  destruct (js_includes l e) eqn:Hi.
  - apply js_includes_In in Hi. split_and!.
    + rewrite in_filter_neq. tauto.
    + intros x Hx. rewrite in_filter_neq. tauto.
    + intros Hnd. apply List.NoDup_filter. exact Hnd.
    + tauto.
  - apply js_includes_false in Hi. split_and!.
    + rewrite in_app_iff. simpl. tauto.
    + intros x Hx. rewrite in_app_iff. simpl. intuition congruence.
    + intros Hnd. apply (Permutation_NoDup (Permutation_cons_append l e)). constructor; assumption.
    + intros _. assert (Hf : js_includes l e = false) by (apply js_includes_false; exact Hi).
      unfold handleExpressionToggle. rewrite Hf.
      replace (js_includes (l ++ [e]) e) with true
        by (symmetry; apply js_includes_In; apply in_or_app; right; left; reflexivity).
      rewrite List.filter_app. simpl. rewrite String.eqb_refl. simpl. rewrite app_nil_r.
      apply forallb_filter_id. apply forallb_forall. intros x Hx.
      destruct (String.eqb_spec x e); [subst; contradiction|reflexivity].
Qed.

Lemma fold_add_spec (ce acc : list string) :
  let r := fold_left (fun acc expr => if js_includes acc expr then acc else (acc ++ [expr])%list)
                     ce acc in
  (exists suf, r = acc ++ suf) /\ (forall x, In x r <-> In x acc \/ In x ce) /\
  (List.NoDup acc -> List.NoDup r).
Proof.
  revert acc. induction ce as [|c ce IH]; intros acc r.
  - subst r. simpl. split_and!; [exists []; symmetry; apply app_nil_r|intros x; tauto|tauto].
  - subst r. simpl. destruct (js_includes acc c) eqn:Hc.
    + destruct (IH acc) as (H1 & H2 & H3). apply js_includes_In in Hc. split_and!; [exact H1| |exact H3].
      intros x. rewrite H2. intuition congruence.
    + destruct (IH (acc ++ [c])) as ((suf & Hs) & H2 & H3). apply js_includes_false in Hc.
      split_and!.
      * exists (c :: suf). rewrite Hs, <- app_assoc. reflexivity.
      * intros x. rewrite H2, in_app_iff. simpl. intuition congruence.
      * intros Hnd. apply H3. apply (Permutation_NoDup (Permutation_cons_append acc c)).
        constructor; assumption.
Qed.

(** Selecting a category that is not fully selected appends its missing
    expressions after the ones already selected, without duplicates: the
    category becomes fully selected (never left partially selected) and
    expressions outside it are untouched. *)
Theorem handleCategoryToggle_select ae cat sel ce :
  category_lookup ae cat = Some ce ->
  isCategoryFullySelected ae cat sel = false ->
  let t := handleCategoryToggle ae cat sel in
  isCategoryFullySelected ae cat t = true /\
  isCategoryPartiallySelected ae cat t = false /\
  (exists suf, t = sel ++ suf) /\
  (forall x, In x t <-> In x sel \/ In x ce) /\
  (List.NoDup sel -> List.NoDup t).
Proof.
  intros Hc Hf t. unfold isCategoryFullySelected in Hf. rewrite Hc in Hf.
  assert (Ht : t = fold_left (fun acc expr => if js_includes acc expr then acc else (acc ++ [expr])%list)
                             ce sel).
  { subst t. unfold handleCategoryToggle. rewrite Hc, Hf. reflexivity. }
  destruct (fold_add_spec ce sel) as (H1 & H2 & H3). rewrite <- Ht in H1, H2, H3.
  assert (Hfull : isCategoryFullySelected ae cat t = true).
  { unfold isCategoryFullySelected. rewrite Hc. apply forallb_forall. intros x Hx.
    apply js_includes_In. apply H2. right. exact Hx. }
  split_and!; [exact Hfull| |exact H1|exact H2|exact H3].
  unfold isCategoryPartiallySelected. rewrite Hc, Hfull. apply andb_false_r.
Qed.

(** Toggling a fully selected category removes each of its expressions
    from the selection and keeps every other selected expression; the
    category is then not partially selected. *)
Theorem handleCategoryToggle_unselect ae cat sel ce :
  category_lookup ae cat = Some ce ->
  isCategoryFullySelected ae cat sel = true ->
  let t := handleCategoryToggle ae cat sel in
  (forall x, In x t <-> In x sel /\ ~ In x ce) /\
  isCategoryPartiallySelected ae cat t = false /\
  (List.NoDup sel -> List.NoDup t).
Proof.
  intros Hc Hf t. unfold isCategoryFullySelected in Hf. rewrite Hc in Hf.
  assert (Ht : t = List.filter (fun expr => negb (js_includes ce expr)) sel).
  { subst t. unfold handleCategoryToggle. rewrite Hc, Hf. reflexivity. }
  assert (Hin : forall x, In x t <-> In x sel /\ ~ In x ce).
  { intros x. rewrite Ht, filter_In, <- js_includes_false.
    destruct (js_includes ce x); simpl; intuition congruence. }
  split_and!; [exact Hin| |].
  - unfold isCategoryPartiallySelected. rewrite Hc.
    replace (existsb (js_includes t) ce) with false; [reflexivity|].
    symmetry. apply not_true_iff_false. rewrite existsb_exists.
    intros (x & Hx & Hxt). apply js_includes_In, Hin in Hxt. tauto.
  - intros Hnd. rewrite Ht. apply List.NoDup_filter. exact Hnd.
Qed.

(** After "select all", every category is fully selected. *)
Theorem selectAllExpressions_full ae cat ce :
  category_lookup ae cat = Some ce ->
  isCategoryFullySelected ae cat (selectAllExpressions ae) = true /\
  isCategoryPartiallySelected ae cat (selectAllExpressions ae) = false.
Proof.
  intros Hc.
  assert (Hfull : isCategoryFullySelected ae cat (selectAllExpressions ae) = true).
  { unfold isCategoryFullySelected. rewrite Hc. apply forallb_forall. intros x Hx.
    apply js_includes_In. unfold selectAllExpressions. apply in_concat. exists ce.
    split; [|exact Hx]. apply in_map_iff. exists (cat, ce). split; [reflexivity|].
    apply category_lookup_In. exact Hc. }
  split; [exact Hfull|]. unfold isCategoryPartiallySelected. rewrite Hc, Hfull. apply andb_false_r.
Qed.

Lemma keep_js_lower_char c : keep_char (js_lower_char c) = keep_char c.
Proof. destruct c as [[] [] [] [] [] [] [] []]; reflexivity. Qed.

Lemma forallb_keep_lower l :
  forallb keep_char (map js_lower_char l) = forallb keep_char l.
Proof. induction l as [|c l IH]; [reflexivity|]. simpl. rewrite keep_js_lower_char, IH. reflexivity. Qed.

Lemma forallb_keep_replace b l :
  forallb keep_char (replace_ws_runs_go b l) = forallb keep_char l.
Proof.
  revert b. induction l as [|c l IH]; intros b; [reflexivity|]. simpl.
  destruct (is_js_space c) eqn:Hs.
  - assert (Hk : keep_char c = true) by (unfold keep_char; rewrite Hs, orb_true_r; reflexivity).
    rewrite Hk. destruct b; simpl; apply IH.
  - simpl. rewrite IH. reflexivity.
Qed.

Lemma forallb_keep_strip l : forallb keep_char (filter keep_char l) = true.
Proof.
  induction l as [|c l IH]; [reflexivity|]. rewrite filter_cons.
  destruct (keep_char c) eqn:Hc; simpl; [rewrite Hc|]; exact IH.
Qed.

Lemma filter_keep_all l : forallb keep_char l = true -> filter keep_char l = l.
Proof.
  induction l as [|c l IH]; intros H; [reflexivity|]. simpl in H.
  apply andb_prop in H as [Hc Hl]. rewrite filter_cons, IH by exact Hl. rewrite Hc. reflexivity.
Qed.

Lemma forallb_keep_name s :
  forallb keep_char (list_ascii_of_string (js_toLowerCase (replace_ws_runs s))) =
  forallb keep_char (list_ascii_of_string s).
Proof.
  unfold js_toLowerCase, replace_ws_runs.
  rewrite !list_ascii_of_string_of_list_ascii, forallb_keep_lower, forallb_keep_replace.
  reflexivity.
Qed.

(** The name under which a single image is downloaded is the name its
    entry gets in the zip exactly when the expression has only letters,
    digits, whitespace and hyphens; any other character makes the two
    names differ. *)
Theorem downloadName_imageFilename e :
  downloadName e = imageFilename e <->
  forallb keep_char (list_ascii_of_string e) = true.
Proof.
  unfold downloadName, imageFilename, safeExpression. split.
  - intros H. apply (f_equal list_ascii_of_string) in H.
    rewrite !list_ascii_of_string_app in H. apply app_inv_head in H. apply app_inv_tail in H.
    rewrite <- forallb_keep_name, H, forallb_keep_name. unfold strip_unsafe.
    rewrite list_ascii_of_string_of_list_ascii. apply forallb_keep_strip.
  - intros H. unfold strip_unsafe. rewrite filter_keep_all by exact H.
    rewrite string_of_list_ascii_of_string. reflexivity.
Qed.

Lemma trim_start_suffix l : exists p, l = p ++ trim_start l.
Proof.
  induction l as [|c l IH]; [exists []; reflexivity|]. simpl.
  destruct (is_js_space c).
  - destruct IH as [p Hp]. exists (c :: p). simpl. rewrite <- Hp. reflexivity.
  - exists []. reflexivity.
Qed.

Lemma trim_start_head l c : hd_error (trim_start l) = Some c -> is_js_space c = false.
Proof.
  induction l as [|d l IH]; [discriminate|]. simpl.
  destruct (is_js_space d) eqn:Hd; [exact IH|]. simpl. intros H. injection H as <-. exact Hd.
Qed.

Lemma js_trim_ends s :
  (forall c, hd_error (list_ascii_of_string (js_trim s)) = Some c -> is_js_space c = false) /\
  (forall c, hd_error (rev (list_ascii_of_string (js_trim s))) = Some c -> is_js_space c = false).
Proof.
  unfold js_trim. rewrite list_ascii_of_string_of_list_ascii.
  set (m := trim_start (list_ascii_of_string s)). split.
  - intros c Hc. destruct (trim_start_suffix (rev m)) as [p Hp].
    assert (Hm : m = rev (trim_start (rev m)) ++ rev p).
    { rewrite <- rev_app_distr, <- Hp, rev_involutive. reflexivity. }
    apply (trim_start_head (list_ascii_of_string s)). fold m. rewrite Hm.
    destruct (rev (trim_start (rev m))); [discriminate|exact Hc].
  - rewrite rev_involutive. apply trim_start_head.
Qed.

(** Submitting the key form: a key that is empty after trimming changes
    nothing and notifies no one; otherwise the trimmed key becomes the
    service's key and the stored key, it never starts or ends with
    whitespace, and every registered listener is told that a key is now
    available. *)
Theorem submitApiKey_spec input s :
  (js_trim input = "" -> submitApiKey input s = (s, [])) /\
  (js_trim input <> "" ->
   let key := js_trim input in
   apiKey_st (fst (submitApiKey input s)) = Some key /\
   stored (fst (submitApiKey input s)) = Some key /\
   snd (submitApiKey input s) = map (fun l => (l, true)) (apiKeyListeners s) /\
   (forall c, hd_error (list_ascii_of_string key) = Some c -> is_js_space c = false) /\
   (forall c, hd_error (rev (list_ascii_of_string key)) = Some c -> is_js_space c = false)).
Proof.
  unfold submitApiKey, handleSubmit. split.
  - intros H. rewrite H. reflexivity.
  - intros H. destruct (String.eqb_spec (js_trim input) "") as [E|_]; [contradiction|].
    destruct (js_trim_ends input) as [H1 H2]. split_and!; try reflexivity; [|exact H1|exact H2].
    unfold handleApiKeySubmit, setApiKey, notifyApiKeyListeners, hasApiKey. simpl.
    apply String.eqb_neq in H. rewrite H. reflexivity.
Qed.

Lemma add_results_bad z rs r :
  In r rs -> decode_payload (default "" (imageData r)) = None ->
  add_results z rs = Rejected atob_error_msg.
Proof.
  revert z. induction rs as [|r' rs IH]; intros z Hin Hbad; [destruct Hin|].
  cbn [add_results]. destruct Hin as [<-|Hin].
  - rewrite Hbad. reflexivity.
  - destruct (decode_payload (default "" (imageData r'))); [|reflexivity]. apply IH; assumption.
Qed.

(** One successful result whose payload [atob] refuses makes the whole
    archive fail with the [atob] error: no partial archive is downloaded,
    whatever the other results hold. *)
Theorem createAndDownloadZip_bad_payload results filename r :
  In r (successful results) ->
  decode_payload (default "" (imageData r)) = None ->
  createAndDownloadZip results filename = Rejected atob_error_msg.
Proof.
  intros Hin Hbad. unfold createAndDownloadZip.
  pose proof (add_results_bad [] _ r Hin Hbad) as Hz.
  destruct (successful results); [destruct Hin|]. rewrite Hz. reflexivity.
Qed.

(* ------------------------------------------------------------------ *)
(** ** Examples of the properties above *)

Lemma generateFacecastBatch_requests_witness :
  exists rs ev,
    generateFacecastBatch sample_net reversed_order (Some "K") sample_image sample_labels 2 None =
      Some (Resolved rs, ev) /\
    filter is_fetch ev =
      map (fun j => Fetch j (build_request "K" sample_image (nth j sample_labels "") None))
          (seq 0 3).
Proof.
  destruct (generateFacecastBatch_requests sample_net reversed_order (Some "K") sample_image
              sample_labels 2 None) as (rs & ev & Hg & Hf).
  - lia.
  - intros i l. unfold reversed_order. symmetry. apply Permutation_rev.
  - exists rs, ev. split; [exact Hg|exact Hf].
Defined.

Lemma generateFacecast_last_image_witness :
  exists g,
    generateFacecast (fun _ => HttpResponse true 200 "" (inr sample_parts_body)) (Some "K")
      sample_image "happy" None = (Resolved g, [build_request "K" sample_image "happy" None]) /\
    imageData_of g = Some "data:image/png;base64,AQID".
Proof.
  apply (generateFacecast_last_image (fun _ => HttpResponse true 200 "" (inr sample_parts_body))
           "K" sample_image "happy" None 200 "" sample_parts_body
           {| content_parts := Some [img_part "AAAA"; text_part "Here you go";
                                     img_part "AQID"; text_part ""] |}
           [{| content_parts := Some [img_part "/w=="] |}]
           [img_part "AAAA"; text_part "Here you go"] (img_part "AQID") [text_part ""]
           "image/png" "AQID").
  - discriminate.
  - reflexivity.
  - reflexivity.
  - reflexivity.
  - reflexivity.
  - constructor; [reflexivity|constructor].
Defined.

Lemma read_body_last_text_witness :
  textResponse_of (read_body sample_parts_body) = Some "Here you go".
Proof.
  apply (read_body_last_text sample_parts_body
           {| content_parts := Some [img_part "AAAA"; text_part "Here you go";
                                     img_part "AQID"; text_part ""] |}
           [{| content_parts := Some [img_part "/w=="] |}]
           [img_part "AAAA"] (text_part "Here you go") [img_part "AQID"; text_part ""]).
  - reflexivity.
  - reflexivity.
  - reflexivity.
  - reflexivity.
  - discriminate.
  - constructor; [left; discriminate|constructor; [right; reflexivity|constructor]].
Defined.

Lemma generateFacecast_no_content_witness :
  generateFacecast (fun _ => HttpResponse true 200 "" (inr empty_parts_body)) (Some "K")
    sample_image "happy" None =
    (Rejected no_content_msg, [build_request "K" sample_image "happy" None]) /\
  generateFacecast (fun _ => HttpResponse true 200 "" (inr {| candidates := None |})) (Some "K")
    sample_image "happy" None =
    (Rejected no_content_msg, [build_request "K" sample_image "happy" None]).
Proof.
  split.
  - apply (generateFacecast_no_content (fun _ => HttpResponse true 200 "" (inr empty_parts_body))
             "K" sample_image "happy" None 200 "" empty_parts_body).
    + discriminate.
    + reflexivity.
    + intros c cs ps Hc Hp. injection Hc as <- _. injection Hp as <-.
      constructor; [split; reflexivity|constructor].
  - apply (generateFacecast_no_content
             (fun _ => HttpResponse true 200 "" (inr {| candidates := None |}))
             "K" sample_image "happy" None 200 "" {| candidates := None |}).
    + discriminate.
    + reflexivity.
    + intros c cs ps Hc. discriminate.
Defined.

Lemma api_run_reload_witness :
  apiKey_st (new_service None
    (stored (fst (api_run (new_service None None)
                   [AddListener 1; SetApiKey "K"; AddListener 2; RemoveListener 1])))) = Some "K".
Proof.
  destruct (api_run_reload None (new_service None None) [AddListener 1] "K"
              [AddListener 2; RemoveListener 1]) as (_ & _ & _ & H4).
  - constructor; [intros key; discriminate|constructor; [intros key; discriminate|constructor]].
  - exact (H4 eq_refl ltac:(discriminate)).
Defined.

Lemma decode_payload_base64_witness :
  decode_payload ("data:" ++ "image/png" ++ ";base64," ++
                  string_of_list_ascii (base64_encode [137; 80; 78; 71]))%string =
    Some [137; 80; 78; 71].
Proof.
  apply decode_payload_base64.
  - repeat (constructor; [lia|]). constructor.
  - reflexivity.
Defined.

Lemma handleExpressionToggle_flip_witness :
  List.NoDup (handleExpressionToggle "happy" ["sad"]) /\
  handleExpressionToggle "happy" (handleExpressionToggle "happy" ["sad"]) = ["sad"].
Proof.
  destruct (handleExpressionToggle_flip "happy" ["sad"]) as (_ & _ & H3 & H4). split.
  - apply H3. constructor; [simpl; tauto|constructor].
  - apply H4. simpl. intros [H|[]]. discriminate.
Defined.

Lemma handleCategoryToggle_select_witness :
  isCategoryFullySelected sample_categories "happy"
    (handleCategoryToggle sample_categories "happy" ["crying"]) = true.
Proof.
  destruct (handleCategoryToggle_select sample_categories "happy" ["crying"] ["smiling"; "laughing"])
    as (H1 & _).
  - reflexivity.
  - reflexivity.
  - exact H1.
Defined.

Lemma handleCategoryToggle_unselect_witness :
  ~ In "smiling" (handleCategoryToggle sample_categories "happy" ["smiling"; "crying"; "laughing"]).
Proof.
  destruct (handleCategoryToggle_unselect sample_categories "happy" ["smiling"; "crying"; "laughing"]
              ["smiling"; "laughing"]) as (H1 & _).
  - reflexivity.
  - reflexivity.
  - intros H. apply H1 in H as [_ H]. apply H. left. reflexivity.
Defined.

Lemma selectAllExpressions_full_witness :
  isCategoryFullySelected sample_categories "sad" (selectAllExpressions sample_categories) = true.
Proof.
  destruct (selectAllExpressions_full sample_categories "sad" ["crying"; "frowning"]) as (H1 & _).
  - reflexivity.
  - exact H1.
Defined.

Lemma submitApiKey_spec_witness :
  submitApiKey "   " (new_service None None) = (new_service None None, []) /\
  apiKey_st (fst (submitApiKey "  K1  " (new_service None None))) = Some "K1".
Proof.
  split.
  - apply (proj1 (submitApiKey_spec "   " (new_service None None))). reflexivity.
  - apply (proj2 (submitApiKey_spec "  K1  " (new_service None None))).
    vm_compute. discriminate.
Defined.

Lemma createAndDownloadZip_bad_payload_witness :
  createAndDownloadZip
    [{| expression := "Happy"; imageData := Some "data:image/png;base64,A"; error := None |}]
    default_zip_name = Rejected atob_error_msg.
Proof.
  apply (createAndDownloadZip_bad_payload _ _
           {| expression := "Happy"; imageData := Some "data:image/png;base64,A"; error := None |}).
  - simpl. left. reflexivity.
  - reflexivity.
Defined.
